(** * Chat Session View: the three [sendMessage] variants

    A shallow embedding of the chat front-ends of the repository:

    - [Vite001]:   src/example/001-vite/README.md (whole-response chat),
    - [Stream003]: src/example/003-stream/vite-frontend/src/App.jsx
                   (streamed chat, the last array element is replaced),
    - [Part000]:   src/unnamed/part_000 (streamed chat, the last message
                   object is written in place).

    The component state ([useState]) is the input string and the
    [messages] array.  A JavaScript array holds references to message
    objects, so the array is a list of locations into an object store
    and object literals allocate.  [sendMessage] is an [async] function:
    it runs up to its next [await], and is resumed by the event that
    settles the awaited promise.  Two schedules are modelled: [step], in
    which the component is rendered after every event, so that each
    requested update is computed before the next event; and [occur], in
    which updates wait in React's queue until a render that may come
    after several events. *)

From stdpp Require Import base list strings.
From Stdlib Require Import Strings.Byte.

(** ** Data model *)

(** A message object [{ role, content }]; both fields are JS strings. *)
Record Message := mkMessage { role : string; content : string }.

#[global] Instance Message_eq_dec : EqDecision Message.
Proof. solve_decision. Defined.

(** Reading through a reference that holds no object gives [undefined]. *)
#[global] Instance Message_inhabited : Inhabited Message :=
  populate {| role := "undefined"; content := "undefined" |}.

(** Object identity: a location is an index into the store. *)
Definition loc := nat.
Abbreviation Heap := (list Message).

(** An object literal allocates a fresh object. *)
Definition alloc (m : Message) (h : Heap) : loc * Heap := (length h, h ++ [m]).

(** Where a call of [sendMessage] is suspended. *)
Inductive cont :=
| AwaitFetch                    (* await fetch(...) *)
| AwaitJson                     (* await res.json() *)
| AwaitRead (aiText : string)   (* await reader.read(), with the local aiText *)
| Returned                      (* the async function has returned *)
| Rejected.                     (* an awaited promise rejected, or a throw *)

#[global] Instance cont_eq_dec : EqDecision cont.
Proof. solve_decision. Defined.

(** An outbound [fetch(url, { method: "POST", body: { message } })]. *)
Record Request := mkRequest { url : string; message : string }.

#[global] Instance Request_eq_dec : EqDecision Request.
Proof. solve_decision. Defined.

Record App := mkApp {
  input : string;            (* useState("") *)
  messages : list loc;       (* useState([]) : array of object references *)
  heap : Heap;               (* the message objects *)
  calls : list cont;         (* the calls of sendMessage, by call number *)
  requests : list Request    (* the fetches issued so far *)
}.

(** [useState("")], [useState([])]; nothing allocated, nothing called. *)
Definition init : App :=
  {| input := ""; messages := []; heap := []; calls := []; requests := [] |}.

(** Reading every element of an array of references. *)
Definition deref (h : Heap) (ms : list loc) : list Message :=
  (λ l, h !!! l) <$> ms.

(** What the component renders: the messages the array refers to. *)
Definition transcript (st : App) : list Message :=
  deref (heap st) (messages st).

Abbreviation user_msg s := {| role := "user"; content := s |}.
Abbreviation ai_msg s := {| role := "ai"; content := s |}.

(** Apply [f] to the last entry, if there is one. *)
Definition write_last (f : Message → Message) (t : list Message) : list Message :=
  alter f (length t - 1) t.

(** [setInput(s)] *)
Definition setInput (s : string) (st : App) : App :=
  {| input := s; messages := messages st; heap := heap st;
     calls := calls st; requests := requests st |}.

(** The continuation of call [k] becomes [c]. *)
Definition suspend (k : nat) (c : cont) (st : App) : App :=
  {| input := input st; messages := messages st; heap := heap st;
     calls := <[k := c]> (calls st); requests := requests st |}.

(** ** src/example/001-vite/README.md *)
Module Vite001.

Definition endpoint : string := "/api/chat".

(** [sendMessage] up to [await fetch]. *)
Definition sendMessage (st : App) : App :=
  if decide (input st = "") then st                     (* if (!input) return; *)
  else
    let '(userMsg, h1) :=
      alloc {| role := "user"; content := input st |} (heap st) in
    {| input := "";                                      (* setInput("") *)
       messages := messages st ++ [userMsg];             (* [...prev, userMsg] *)
       heap := h1;
       calls := calls st ++ [AwaitFetch];
       requests := requests st ++ [{| url := endpoint; message := input st |}] |}.

(** [const data = await res.json();
     setMessages(prev => [...prev, { role: "ai", content: data.reply }])] *)
Definition resume_json (k : nat) (reply : string) (st : App) : App :=
  let '(a, h1) := alloc {| role := "ai"; content := reply |} (heap st) in
  {| input := input st;
     messages := messages st ++ [a];
     heap := h1;
     calls := <[k := Returned]> (calls st);
     requests := requests st |}.

End Vite001.

(** ** src/example/003-stream/vite-frontend/src/App.jsx *)
Module Stream003.

Definition endpoint : string := "/api/chat-stream".

(** [sendMessage] up to [await fetch]; this variant has no guard. *)
Definition sendMessage (st : App) : App :=
  let '(userMsg, h1) :=
    alloc {| role := "user"; content := input st |} (heap st) in
  let '(a, h2) := alloc {| role := "ai"; content := "" |} h1 in
  {| input := "";
     messages := messages st ++ [userMsg; a];
     heap := h2;
     calls := calls st ++ [AwaitFetch];
     requests :=
       requests st ++ [{| url := endpoint; message := content (h1 !!! userMsg) |}] |}.

(** [prev => { const copy = [...prev];
               copy[copy.length - 1] = { role: "ai", content: aiText };
               return copy; }]
    On an empty array the index is -1: the assignment adds a property
    and no element. *)
Definition updater (aiText : string) (h : Heap) (prev : list loc)
  : Heap * list loc :=
  let copy := prev in
  let '(a, h1) := alloc {| role := "ai"; content := aiText |} h in
  match copy with
  | [] => (h1, copy)
  | _ :: _ => (h1, <[length copy - 1 := a]> copy)
  end.

(** The loop body, after [reader.read()] gave [{ value, done: false }]. *)
Definition resume_read (decode : list byte → string)
    (k : nat) (aiText : string) (value : list byte) (st : App) : App :=
  let aiText := aiText +:+ decode value in        (* aiText += decoder.decode(value) *)
  let '(h1, ms) := updater aiText (heap st) (messages st) in
  {| input := input st; messages := ms; heap := h1;
     calls := <[k := AwaitRead aiText]> (calls st);
     requests := requests st |}.

End Stream003.

(** ** src/unnamed/part_000 *)
Module Part000.

Definition endpoint : string := "/api/chat-stream".

(** [sendMessage] up to [await fetch]. *)
Definition sendMessage (st : App) : App :=
  if decide (input st = "") then st                     (* if (!input) return; *)
  else
    let '(u, h1) := alloc {| role := "user"; content := input st |} (heap st) in
    let '(a, h2) := alloc {| role := "ai"; content := "" |} h1 in
    {| input := "";
       messages := messages st ++ [u; a];
       heap := h2;
       calls := calls st ++ [AwaitFetch];
       requests := requests st ++ [{| url := endpoint; message := input st |}] |}.

(** [prev => { const copy = [...prev];
               copy[copy.length - 1].content = aiText;
               return copy; }]
    The copy is shallow: the write goes to the object that [prev]
    refers to as well.  On an empty array [copy[-1]] is [undefined] and
    the write throws. *)
Definition updater (aiText : string) (h : Heap) (prev : list loc)
  : option (Heap * list loc) :=
  let copy := prev in
  match last copy with
  | None => None
  | Some l =>
      Some (alter (λ m, {| role := role m; content := aiText |}) l h, copy)
  end.

(** The loop body, after [reader.read()] gave [{ value, done: false }]. *)
Definition resume_read (decode : list byte → string)
    (k : nat) (aiText : string) (value : list byte) (st : App) : App :=
  let aiText := aiText +:+ decode value in        (* aiText += decoder.decode(value) *)
  match updater aiText (heap st) (messages st) with
  | Some (h1, ms) =>
      {| input := input st; messages := ms; heap := h1;
         calls := <[k := AwaitRead aiText]> (calls st);
         requests := requests st |}
  | None => suspend k Rejected st
  end.

End Part000.

(** ** The component as a transition system *)

Inductive variant :=
| WholeResponse     (* Vite001 *)
| StreamReplace     (* Stream003 *)
| StreamInPlace.    (* Part000 *)

#[global] Instance variant_eq_dec : EqDecision variant.
Proof. solve_decision. Defined.

Definition streaming (v : variant) : bool :=
  match v with WholeResponse => false | _ => true end.

(** What the browser delivers to the component. *)
Inductive event :=
| Change (s : string)                 (* onChange: setInput(e.target.value) *)
| Click                               (* onClick={sendMessage} *)
| Response (k : nat)                  (* call k: fetch resolved *)
| Json (k : nat) (reply : string)     (* call k: res.json() resolved, data.reply *)
| Read (k : nat) (value : list byte)  (* call k: read() gave { value, done: false } *)
| Done (k : nat)                      (* call k: read() gave { done: true } *)
| Throw (k : nat).                    (* call k: the awaited promise rejected *)

(** The call an event belongs to. *)
Definition event_call (e : event) : option nat :=
  match e with
  | Change _ | Click => None
  | Response k | Json k _ | Read k _ | Done k | Throw k => Some k
  end.

(** What the server sends back: the chunks of a streamed body (the stream
    then closes), or a JSON body with its [reply] field. *)
Inductive answer :=
| Chunks (cs : list (list byte))
| Reply (reply : string).

(** The events by which call [k] receives an answer in full. *)
Definition answer_events (k : nat) (a : answer) : list event :=
  match a with
  | Chunks cs => Response k :: (Read k <$> cs) ++ [Done k]
  | Reply reply => [Response k; Json k reply]
  end.

(** The events by which call [k] fails: [fetch] rejects, or a later
    [await] does after the response and the chunks [cs] have arrived. *)
Definition failure_events (k : nat) (received : option (list (list byte)))
  : list event :=
  match received with
  | None => [Throw k]
  | Some cs => Response k :: (Read k <$> cs) ++ [Throw k]
  end.

(** The kind of answer a variant consumes. *)
Definition fits (v : variant) (a : answer) : bool :=
  match v, a with
  | WholeResponse, Reply _ => true
  | StreamReplace, Chunks _ | StreamInPlace, Chunks _ => true
  | _, _ => false
  end.

(** Whether every click finds a non-empty input, when the input is [inp]
    before the events. *)
Fixpoint clicks_nonempty (inp : string) (es : list event) : bool :=
  match es with
  | [] => true
  | Change s :: es' => clicks_nonempty s es'
  | Click :: es' => bool_decide (inp ≠ "") && clicks_nonempty "" es'
  | _ :: es' => clicks_nonempty inp es'
  end.

(** The roles of [n] turns: user, ai, user, ai, ... *)
Fixpoint turns_roles (n : nat) : list string :=
  match n with
  | 0 => []
  | S n' => "user" :: "ai" :: turns_roles n'
  end.

(** Roles that alternate user, ai from the first entry on. *)
Definition alternating (t : list Message) : Prop :=
  ∃ n, role <$> t = turns_roles n.

(** Two component states that show the same: equal but for the store and
    the references into it. *)
Definition related (st1 st2 : App) : Prop :=
  input st1 = input st2 ∧ calls st1 = calls st2 ∧
  requests st1 = requests st2 ∧ transcript st1 = transcript st2.

(** The texts joined, in order. *)
Definition concat_text (texts : list string) : string :=
  foldr String.append "" texts.

(** The running values of an accumulator to which the texts are appended
    one after the other. *)
Fixpoint accumulate (acc : string) (texts : list string) : list string :=
  match texts with
  | [] => []
  | t :: texts' => (acc +:+ t) :: accumulate (acc +:+ t) texts'
  end.

(** The content of the last entry of the transcript. *)
Definition last_content (st : App) : option string :=
  content <$> last (transcript st).

Section Component.

(** [new TextDecoder()] and [decoder.decode(value)] without the stream
    option: every chunk is decoded on its own. *)
Variable decode : list byte → string.

Definition sendMessage (v : variant) (st : App) : App :=
  match v with
  | WholeResponse => Vite001.sendMessage st
  | StreamReplace => Stream003.sendMessage st
  | StreamInPlace => Part000.sendMessage st
  end.

(** After [await fetch]: the whole-response variant awaits [res.json()];
    the streaming ones take the reader, a decoder, [let aiText = ""] and
    await the first [reader.read()].  A response without a body, on which
    [res.body.getReader()] throws, has no transition of its own: the call
    ends rejected with nothing else changed, as after [Throw]. *)
Definition resume_fetch (v : variant) : cont :=
  match v with
  | WholeResponse => AwaitJson
  | _ => AwaitRead ""
  end.

Definition resume_read (v : variant) (k : nat) (aiText : string)
    (value : list byte) (st : App) : App :=
  match v with
  | WholeResponse => st
  | StreamReplace => Stream003.resume_read decode k aiText value st
  | StreamInPlace => Part000.resume_read decode k aiText value st
  end.

Definition resume_json (v : variant) (k : nat) (reply : string) (st : App)
  : App :=
  match v with
  | WholeResponse => Vite001.resume_json k reply st
  | _ => st
  end.

(** One event, and the render after it: the updates the event requests
    are computed before the next event (see [occur] below for events
    between which no render takes place).  An event for a call that is not
    suspended at the matching [await] cannot occur and changes nothing. *)
Definition step (v : variant) (st : App) (e : event) : App :=
  match e with
  | Change s => setInput s st
  | Click => sendMessage v st
  | Response k =>
      match calls st !! k with
      | Some AwaitFetch => suspend k (resume_fetch v) st
      | _ => st
      end
  | Json k reply =>
      match calls st !! k with
      | Some AwaitJson => resume_json v k reply st
      | _ => st
      end
  | Read k value =>
      match calls st !! k with
      | Some (AwaitRead aiText) => resume_read v k aiText value st
      | _ => st
      end
  | Done k =>
      match calls st !! k with
      | Some (AwaitRead _) => suspend k Returned st      (* if (done) break; *)
      | _ => st
      end
  | Throw k =>
      match calls st !! k with
      | Some AwaitFetch | Some AwaitJson | Some (AwaitRead _) =>
          suspend k Rejected st
      | _ => st
      end
  end.

(** The endpoint a variant posts to. *)
Definition endpoint (v : variant) : string :=
  match v with
  | WholeResponse => Vite001.endpoint
  | StreamReplace => Stream003.endpoint
  | StreamInPlace => Part000.endpoint
  end.

(** The transcript that [step] leaves, told from the transcript it
    finds. *)
Definition transcript_after (v : variant) (st : App) (e : event)
  : list Message :=
  let t := transcript st in
  match e with
  | Click =>
      match v with
      | WholeResponse =>
          if decide (input st = "") then t else t ++ [user_msg (input st)]
      | StreamReplace => t ++ [user_msg (input st); ai_msg ""]
      | StreamInPlace =>
          if decide (input st = "") then t
          else t ++ [user_msg (input st); ai_msg ""]
      end
  | Json k reply =>
      match calls st !! k with
      | Some AwaitJson =>
          match v with
          | WholeResponse => t ++ [ai_msg reply]
          | _ => t
          end
      | _ => t
      end
  | Read k value =>
      match calls st !! k with
      | Some (AwaitRead aiText) =>
          let aiText := aiText +:+ decode value in
          match v with
          | WholeResponse => t
          | StreamReplace => write_last (λ _, ai_msg aiText) t
          | StreamInPlace =>
              write_last (λ m, {| role := role m; content := aiText |}) t
          end
      | _ => t
      end
  | _ => t
  end.

Definition run (v : variant) (es : list event) (st : App) : App :=
  fold_left (step v) es st.

(** The states after each event, in order. *)
Fixpoint trace (v : variant) (es : list event) (st : App) : list App :=
  match es with
  | [] => []
  | e :: es' => let st' := step v st e in st' :: trace v es' st'
  end.

Definition reachable (v : variant) (st : App) : Prop :=
  ∃ es, st = run v es init.

(** [submit(s)]: the text is typed, the button is clicked. *)
Definition submit (v : variant) (s : string) (st : App) : App :=
  step v (step v st (Change s)) Click.

(** One turn on its own: a submit and, when it sent a request, the whole
    answer to it, with no other event in between. *)
Definition run_turn (v : variant) (st : App) (t : string * answer) : App :=
  let st1 := submit v t.1 st in
  if decide (length (calls st1) = length (calls st)) then st1
  else run v (answer_events (length (calls st)) t.2) st1.

Definition run_turns (v : variant) (ts : list (string * answer)) (st : App)
  : App :=
  fold_left (run_turn v) ts st.

End Component.

(** On chunks of ASCII bytes, decoding is byte by byte. *)
Definition decode_ascii : list byte → string := String.string_of_list_byte.

(** The bytes of an ASCII text. *)
Definition bytes (s : string) : list byte := String.list_byte_of_string s.

(** ** Well-formed component states *)

(** Every reference in the array holds an object, and no object is
    referred to twice. *)
Definition wf (st : App) : Prop :=
  Forall (λ l, l < length (heap st)) (messages st) ∧ NoDup (messages st).

(** A role the code gives a message. *)
Definition role_ok (m : Message) : Prop := role m = "user" ∨ role m = "ai".

(** A call of a streaming variant that awaits a chunk, in a turn that no
    other call disturbs: the entry it fills is the last one and holds
    what the call has accumulated. *)
Definition reading (k : nat) (aiText : string) (T : list Message)
    (s : string) (st : App) : Prop :=
  wf st ∧ calls st !! k = Some (AwaitRead aiText) ∧ input st = "" ∧
  transcript st = T ++ [user_msg s; ai_msg aiText].

(** ** src/example/004-chatgpt/vite-frontend/src/components/ChatBubble.jsx *)

(** The [style] of the outer [div]. *)
Record RowStyle := mkRowStyle {
  display : string;
  justifyContent : string;
  marginBottom : nat
}.

(** The [style] of the inner [div]. *)
Record BoxStyle := mkBoxStyle {
  maxWidth : string;
  padding : string;
  borderRadius : nat;
  background : string;
  color : string;
  whiteSpace : string
}.

(** The element [ChatBubble] returns: the two styles and the text handed to
    [ReactMarkdown]. *)
Record Bubble := mkBubble {
  row : RowStyle;
  box : BoxStyle;
  children : string
}.

Definition ChatBubble (role content : string) : Bubble :=
  let isUser := bool_decide (role = "user") in      (* role === "user" *)
  {| row := {| display := "flex";
               justifyContent := if isUser then "flex-end" else "flex-start";
               marginBottom := 12 |};
     box := {| maxWidth := "70%";
               padding := "10px 14px";
               borderRadius := 12;
               background := if isUser then "#4f46e5" else "#f3f4f6";
               color := if isUser then "#fff" else "#111";
               whiteSpace := "pre-wrap" |};
     children := content |}.

(** The bubble of a message. *)
Definition bubble_of (m : Message) : Bubble := ChatBubble (role m) (content m).

(** The texts of the user messages of a transcript, in order. *)
Definition user_texts (t : list Message) : list string :=
  content <$> filter (λ m, role m = "user") t.

(** Whether a click sends: 003-stream always does, the other two when the
    input is not empty. *)
Definition sends (v : variant) (st : App) : bool :=
  match v with
  | StreamReplace => true
  | _ => bool_decide (input st ≠ "")
  end.

(** The chunks that the events deliver to call [k], in order. *)
Definition chunks_of (k : nat) (es : list event) : list (list byte) :=
  omap (λ e, match e with
             | Read k' value => if decide (k' = k) then Some value else None
             | _ => None
             end) es.

(** Whether an event is a chunk for call [k] or belongs to no call or to
    another one. *)
Definition chunk_or_other (k : nat) (e : event) : bool :=
  match e with
  | Read _ _ => true
  | _ => bool_decide (event_call e ≠ Some k)
  end.

(** A call that has returned or was rejected. *)
Definition settled (c : cont) : bool :=
  match c with
  | Returned | Rejected => true
  | _ => false
  end.

(** ** The update queue

    [step] above is the schedule in which a render follows every event.
    React itself does not compute a requested update at once: [setInput]
    and [setMessages] put the update in a queue, and the queue is computed
    at the next render, the updater functions running then (the first
    update requested after a render may be computed at once, [eager]).
    Two things in the code depend on that.  The chunk updater closes over
    the variable [aiText], not its value, and reads it when it runs; the
    click handler closes over the [input] of the last render. *)

(** A requested state update. *)
Inductive update :=
| SetInput (s : string)          (* setInput(s) *)
| Append (new : list Message)    (* setMessages(prev => [...prev, ...new]) *)
| WriteLast (k : nat).           (* the chunk updater of call k, which reads
                                    the variable aiText of call k *)

Record Sched := mkSched {
  app : App;                 (* the state as computed so far, the store,
                                the calls and the requests *)
  aiTexts : list string;     (* the variable aiText of every call *)
  pending : list update;     (* the updates requested and not computed *)
  scheduled : bool;          (* an update was requested since the last render *)
  shown_input : string;      (* the input of the last render *)
  shown : list Message       (* the messages of the last render *)
}.

(** What is on screen, or is an event: the events of [event], and the
    render of the component. *)
Inductive occurrence :=
| Ev (e : event)
| Render.

(** [[...prev, m1, ..., mn]]: the new objects are allocated in order. *)
Fixpoint push_all (new : list Message) (h : Heap) (prev : list loc)
  : Heap * list loc :=
  match new with
  | [] => (h, prev)
  | m :: new' => let '(l, h') := alloc m h in push_all new' h' (prev ++ [l])
  end.

(** The text a suspended call has accumulated. *)
Definition call_text (c : cont) : string :=
  match c with
  | AwaitRead aiText => aiText
  | _ => ""
  end.

(** Whether [sendMessage] opens with [if (!input) return;]. *)
Definition guarded (v : variant) : bool :=
  match v with
  | StreamReplace => false
  | _ => true
  end.

(** The entries a submit of [s] appends. *)
Definition submitted (v : variant) (s : string) : list Message :=
  match v with
  | WholeResponse => [user_msg s]
  | _ => [user_msg s; ai_msg ""]
  end.

(** Computing one update; [texts] are the variables [aiText] as they are
    when the update is computed. *)
Definition compute_update (v : variant) (texts : list string) (u : update)
    (st : App) : App :=
  match u with
  | SetInput s => setInput s st
  | Append new =>
      let '(h, ms) := push_all new (heap st) (messages st) in
      {| input := input st; messages := ms; heap := h;
         calls := calls st; requests := requests st |}
  | WriteLast k =>
      let aiText := texts !!! k in
      match v with
      | WholeResponse => st
      | StreamReplace =>
          let '(h, ms) := Stream003.updater aiText (heap st) (messages st) in
          {| input := input st; messages := ms; heap := h;
             calls := calls st; requests := requests st |}
      | StreamInPlace =>
          match Part000.updater aiText (heap st) (messages st) with
          | Some (h, ms) =>
              {| input := input st; messages := ms; heap := h;
                 calls := calls st; requests := requests st |}
          | None => st
          end
      end
  end.

(** The calls, requests and store change at once. *)
Definition with_app (f : App → App) (sc : Sched) : Sched :=
  {| app := f (app sc); aiTexts := aiTexts sc; pending := pending sc;
     scheduled := scheduled sc; shown_input := shown_input sc;
     shown := shown sc |}.

(** [setInput(..)] or [setMessages(..)]: the update is queued and a render
    is due.  With [eager], an update requested when none is outstanding is
    computed at once, and one that leaves the state as it is requests
    nothing. *)
Definition request_update (v : variant) (eager : bool) (u : update)
    (sc : Sched) : Sched :=
  if eager && negb (scheduled sc) then
    match u with
    | SetInput s =>
        if decide (s = input (app sc)) then sc
        else with_app (compute_update v (aiTexts sc) u)
               {| app := app sc; aiTexts := aiTexts sc; pending := pending sc;
                  scheduled := true; shown_input := shown_input sc;
                  shown := shown sc |}
    | _ =>
        with_app (compute_update v (aiTexts sc) u)
          {| app := app sc; aiTexts := aiTexts sc; pending := pending sc;
             scheduled := true; shown_input := shown_input sc;
             shown := shown sc |}
    end
  else
    {| app := app sc; aiTexts := aiTexts sc; pending := pending sc ++ [u];
       scheduled := true; shown_input := shown_input sc; shown := shown sc |}.

(** The render: the queue is computed in order, with the variables
    [aiText] as they are now, and the result is shown. *)
Definition render (v : variant) (sc : Sched) : Sched :=
  let st := foldl (λ st u, compute_update v (aiTexts sc) u st)
              (app sc) (pending sc) in
  {| app := st; aiTexts := aiTexts sc; pending := [];
     scheduled := false; shown_input := input st; shown := transcript st |}.

(** A state in which all is rendered and nothing is outstanding. *)
Definition quiet (st : App) : Sched :=
  {| app := st; aiTexts := call_text <$> calls st; pending := [];
     scheduled := false; shown_input := input st; shown := transcript st |}.

(** [sc] is a state in which [st] is rendered and nothing is
    outstanding. *)
Definition shows (sc : Sched) (st : App) : Prop :=
  app sc = st ∧ pending sc = [] ∧ scheduled sc = false
  ∧ shown_input sc = input st ∧ shown sc = transcript st
  ∧ length (aiTexts sc) = length (calls st)
  ∧ ∀ k c,
      calls st !! k = Some c → settled c = false →
      aiTexts sc !! k = Some (call_text c).

(** Call [k] of a streaming variant reads, in a turn that no other call
    disturbs: its variable [aiText] holds [aiText], the outstanding
    updates are [n] chunk updaters of the call, and the entry it fills is
    the last one; it holds the accumulated text unless an updater is
    outstanding. *)
Definition batch_reading (k : nat) (aiText : string) (T : list Message)
    (s : string) (sc : Sched) : Prop :=
  wf (app sc) ∧ calls (app sc) !! k = Some (AwaitRead aiText)
  ∧ aiTexts sc !! k = Some aiText
  ∧ ∃ n c, pending sc = replicate n (WriteLast k)
           ∧ transcript (app sc) = T ++ [user_msg s; ai_msg c]
           ∧ (n = 0 → c = aiText)
           ∧ (scheduled sc = false → n = 0).

(** The chunks in batches: the chunks of a batch arrive with no render in
    between, and a render follows the batch. *)
Fixpoint batches (k : nat) (groups : list (list (list byte)))
  : list occurrence :=
  match groups with
  | [] => []
  | g :: groups' =>
      ((λ value, Ev (Read k value)) <$> g) ++ Render :: batches k groups'
  end.

(** The schedule in which a render follows every event. *)
Definition rendered_after_each (es : list event) : list occurrence :=
  flat_map (λ e, [Ev e; Render]) es.

(** The content of the last entry of a rendered transcript. *)
Definition shown_content (t : list Message) : option string :=
  content <$> last t.

Section Schedule.

Variable decode : list byte → string.

(** [sendMessage] up to [await fetch], its updates requested: the handler
    reads the [input] of the last render. *)
Definition click (v : variant) (eager : bool) (sc : Sched) : Sched :=
  let inp := shown_input sc in
  if guarded v && bool_decide (inp = "") then sc     (* if (!input) return; *)
  else
    let sc1 := request_update v eager (Append (submitted v inp)) sc in
    let sc2 := request_update v eager (SetInput "") sc1 in
    {| app := {| input := input (app sc2); messages := messages (app sc2);
                 heap := heap (app sc2);
                 calls := calls (app sc2) ++ [AwaitFetch];
                 requests := requests (app sc2)
                             ++ [{| url := endpoint v; message := inp |}] |};
       aiTexts := aiTexts sc2 ++ [""];
       pending := pending sc2; scheduled := scheduled sc2;
       shown_input := shown_input sc2; shown := shown sc2 |}.

(** The loop body: [aiText += decoder.decode(value)], then the updater is
    requested. *)
Definition read_chunk (v : variant) (eager : bool) (k : nat)
    (value : list byte) (sc : Sched) : Sched :=
  let aiText := (aiTexts sc !!! k) +:+ decode value in
  request_update v eager (WriteLast k)
    {| app := suspend k (AwaitRead aiText) (app sc);
       aiTexts := <[k := aiText]> (aiTexts sc);
       pending := pending sc; scheduled := scheduled sc;
       shown_input := shown_input sc; shown := shown sc |}.

(** One event or one render. *)
Definition occur (v : variant) (eager : bool) (sc : Sched) (o : occurrence)
  : Sched :=
  match o with
  | Render => render v sc
  | Ev (Change s) => request_update v eager (SetInput s) sc
  | Ev Click => click v eager sc
  | Ev (Response k) =>
      match calls (app sc) !! k with
      | Some AwaitFetch => with_app (suspend k (resume_fetch v)) sc
      | _ => sc
      end
  | Ev (Json k reply) =>
      match calls (app sc) !! k, v with
      | Some AwaitJson, WholeResponse =>
          with_app (suspend k Returned)
            (request_update v eager (Append [ai_msg reply]) sc)
      | _, _ => sc
      end
  | Ev (Read k value) =>
      match calls (app sc) !! k, v with
      | Some (AwaitRead _), StreamReplace
      | Some (AwaitRead _), StreamInPlace => read_chunk v eager k value sc
      | _, _ => sc
      end
  | Ev (Done k) =>
      match calls (app sc) !! k with
      | Some (AwaitRead _) => with_app (suspend k Returned) sc
      | _ => sc
      end
  | Ev (Throw k) =>
      match calls (app sc) !! k with
      | Some AwaitFetch | Some AwaitJson | Some (AwaitRead _) =>
          with_app (suspend k Rejected) sc
      | _ => sc
      end
  end.

Definition occurs (v : variant) (eager : bool) (os : list occurrence)
    (sc : Sched) : Sched :=
  fold_left (occur v eager) os sc.

(** What the renders among [os] show, in order. *)
Fixpoint renders (v : variant) (eager : bool) (os : list occurrence)
    (sc : Sched) : list (list Message) :=
  match os with
  | [] => []
  | Render :: os' =>
      shown (render v sc) :: renders v eager os' (render v sc)
  | Ev e :: os' => renders v eager os' (occur v eager sc (Ev e))
  end.

End Schedule.

(** ** The object store *)

Section Store.

Implicit Types (h : Heap) (ms : list loc) (m : Message).

Lemma deref_app h ms1 ms2 : deref h (ms1 ++ ms2) = deref h ms1 ++ deref h ms2.
Proof. apply fmap_app. Qed.

Lemma deref_length h ms : length (deref h ms) = length ms.
Proof. apply length_fmap. Qed.

(** Allocation does not disturb the objects that exist. *)
Lemma deref_grow h h' ms :
  Forall (λ l, l < length h) ms → deref (h ++ h') ms = deref h ms.
Proof.
  induction 1 as [|l ms Hl _ IH]; [done|].
  unfold deref in *. rewrite !fmap_cons, IH.
  by rewrite lookup_total_app_l.
Qed.

Lemma lookup_fresh h m h' : (h ++ m :: h') !!! length h = m.
Proof.
  rewrite lookup_total_app_r by lia.
  by replace (length h - length h) with 0 by lia.
Qed.

(** A write to one object is seen only through references to it. *)
Lemma deref_alter_other f l h ms :
  l ∉ ms → deref (alter f l h) ms = deref h ms.
Proof.
  intros Hl. apply list_fmap_ext. intros i l' Hi.
  apply list_lookup_total_alter_ne. intros ->.
  apply Hl. by eapply list_elem_of_lookup_2.
Qed.

Lemma deref_alter_last f l h ms :
  l < length h → l ∉ ms →
  deref (alter f l h) (ms ++ [l]) = deref h ms ++ [f (h !!! l)].
Proof.
  intros Hlt Hl. rewrite deref_app, deref_alter_other by done.
  unfold deref at 2. simpl. by rewrite list_lookup_total_alter_eq.
Qed.

(** A transcript that ends in [m] is read through an array that ends in
    a reference to [m]. *)
Lemma deref_snoc_inv h ms front m :
  deref h ms = front ++ [m] →
  ∃ ms' l, ms = ms' ++ [l] ∧ deref h ms' = front ∧ h !!! l = m.
Proof.
  destruct ms as [|l0 ms0] using rev_ind.
  - intros H. by destruct front.
  - clear IHms0. rewrite deref_app. intros H.
    apply app_inj_tail in H as [H1 H2].
    by exists ms0, l0.
Qed.

End Store.

Lemma NoDup_snoc_fresh (n : nat) (ms : list loc) :
  Forall (λ l, l < n) ms → NoDup ms → NoDup (ms ++ [n]).
Proof.
  intros Hv Hn. apply NoDup_app. split_and!; [done| |apply NoDup_singleton].
  intros l Hl ->%list_elem_of_singleton.
  rewrite Forall_forall in Hv. specialize (Hv _ Hl). lia.
Qed.

Lemma Forall_lt_mono (n n' : nat) (ms : list loc) :
  n ≤ n' → Forall (λ l, l < n) ms → Forall (λ l, l < n') ms.
Proof. intros Hn H. eapply Forall_impl; [done|]. simpl. lia. Qed.

Lemma wf_init : wf init.
Proof. split; [apply Forall_nil_2 | apply NoDup_nil_2]. Qed.

Lemma wf_setInput s st : wf st → wf (setInput s st).
Proof. done. Qed.

Lemma wf_suspend k c st : wf st → wf (suspend k c st).
Proof. done. Qed.

(** Appending references to freshly allocated objects. *)
Lemma wf_push_valid (h : Heap) (ms : list loc) (m : Message) :
  Forall (λ l, l < length h) ms →
  Forall (λ l, l < length (h ++ [m])) (ms ++ [length h]).
Proof.
  intros Hv. rewrite length_app; simpl. apply Forall_app. split.
  - eapply Forall_lt_mono; [|done]. lia.
  - apply Forall_singleton. lia.
Qed.

Lemma wf_push (h : Heap) (ms : list loc) (m : Message) :
  Forall (λ l, l < length h) ms → NoDup ms →
  Forall (λ l, l < length (h ++ [m])) (ms ++ [length h]) ∧
  NoDup (ms ++ [length h]).
Proof.
  intros Hv Hn. split; [by apply wf_push_valid | by apply NoDup_snoc_fresh].
Qed.

Lemma wf_push2 (h : Heap) (ms : list loc) (m1 m2 : Message) :
  Forall (λ l, l < length h) ms → NoDup ms →
  Forall (λ l, l < length ((h ++ [m1]) ++ [m2]))
         (ms ++ [length h; length (h ++ [m1])]) ∧
  NoDup (ms ++ [length h; length (h ++ [m1])]).
Proof.
  intros Hv Hn.
  change (ms ++ [length h; length (h ++ [m1])])
    with (ms ++ [length h] ++ [length (h ++ [m1])]).
  rewrite !(assoc_L (++)).
  destruct (wf_push h ms m1 Hv Hn) as [Hv1 Hn1]. by apply wf_push.
Qed.

Lemma deref_push (h : Heap) (ms : list loc) (m : Message) :
  Forall (λ l, l < length h) ms →
  deref (h ++ [m]) (ms ++ [length h]) = deref h ms ++ [m].
Proof.
  intros Hv. rewrite deref_app, deref_grow by done.
  unfold deref at 2. simpl. by rewrite lookup_fresh.
Qed.

Lemma deref_push2 (h : Heap) (ms : list loc) (m1 m2 : Message) :
  Forall (λ l, l < length h) ms →
  deref ((h ++ [m1]) ++ [m2]) (ms ++ [length h; length (h ++ [m1])])
  = deref h ms ++ [m1; m2].
Proof.
  intros Hv.
  change (ms ++ [length h; length (h ++ [m1])])
    with (ms ++ [length h] ++ [length (h ++ [m1])]).
  change (deref h ms ++ [m1; m2]) with (deref h ms ++ [m1] ++ [m2]).
  rewrite !(assoc_L (++)), deref_push; [by rewrite deref_push|].
  by apply wf_push_valid.
Qed.

(** ** What each piece of [sendMessage] does to the transcript *)

Section Pieces.

Variable decode : list byte → string.

(** *** Vite001 *)

Lemma Vite001_send_empty st : input st = "" → Vite001.sendMessage st = st.
Proof. intros H. unfold Vite001.sendMessage. by rewrite decide_True. Qed.

Lemma Vite001_send_transcript st :
  wf st → input st ≠ "" →
  transcript (Vite001.sendMessage st) = transcript st ++ [user_msg (input st)].
Proof.
  intros [Hv _] Hin. unfold Vite001.sendMessage, transcript.
  rewrite decide_False by done. simpl. by apply deref_push.
Qed.

Lemma Vite001_send_wf st : wf st → wf (Vite001.sendMessage st).
Proof.
  intros [Hv Hn]. unfold Vite001.sendMessage. case_decide; [done|].
  by apply wf_push.
Qed.

Lemma Vite001_json_transcript k reply st :
  wf st →
  transcript (Vite001.resume_json k reply st) = transcript st ++ [ai_msg reply].
Proof. intros [Hv _]. unfold transcript. simpl. by apply deref_push. Qed.

Lemma Vite001_json_wf k reply st : wf st → wf (Vite001.resume_json k reply st).
Proof. intros [Hv Hn]. by apply wf_push. Qed.

(** *** Stream003 *)

Lemma Stream003_send_transcript st :
  wf st →
  transcript (Stream003.sendMessage st)
  = transcript st ++ [user_msg (input st); ai_msg ""].
Proof. intros [Hv _]. unfold transcript. simpl. by apply deref_push2. Qed.

Lemma Stream003_send_wf st : wf st → wf (Stream003.sendMessage st).
Proof. intros [Hv Hn]. by apply wf_push2. Qed.

(** [userMsg.content] is the input. *)
Lemma Stream003_send_requests st :
  requests (Stream003.sendMessage st)
  = requests st ++ [{| url := "/api/chat-stream"; message := input st |}].
Proof. simpl. by rewrite lookup_fresh. Qed.

Lemma Stream003_updater_snoc aiText h ms l :
  Stream003.updater aiText h (ms ++ [l])
  = (h ++ [ai_msg aiText], ms ++ [length h]).
Proof.
  unfold Stream003.updater, alloc.
  replace (length (ms ++ [l]) - 1) with (length ms + 0)
    by (rewrite length_app; simpl; lia).
  rewrite insert_app_r. simpl. by destruct ms.
Qed.

Lemma Stream003_read_transcript k aiText value st front m :
  wf st → transcript st = front ++ [m] →
  transcript (Stream003.resume_read decode k aiText value st)
  = front ++ [ai_msg (aiText +:+ decode value)].
Proof.
  intros [Hv _] Ht. unfold transcript in Ht.
  apply deref_snoc_inv in Ht as (ms & l & Hms & <- & _).
  unfold Stream003.resume_read, transcript.
  rewrite Hms, Stream003_updater_snoc. simpl.
  apply deref_push. rewrite Hms in Hv. by apply Forall_app in Hv as [? _].
Qed.

Lemma Stream003_read_nil k aiText value st :
  messages st = [] →
  messages (Stream003.resume_read decode k aiText value st) = [].
Proof. intros H. unfold Stream003.resume_read. by rewrite H. Qed.

Lemma Stream003_read_wf k aiText value st :
  wf st → wf (Stream003.resume_read decode k aiText value st).
Proof.
  intros [Hv Hn]. unfold Stream003.resume_read.
  destruct (messages st) as [|l0 ms0] eqn:Hms using rev_ind.
  - split; [apply Forall_nil_2 | apply NoDup_nil_2].
  - clear IHms0. rewrite Stream003_updater_snoc.
    apply Forall_app in Hv as [Hv _]. apply NoDup_app in Hn as (Hn & _ & _).
    by apply wf_push.
Qed.

(** *** Part000 *)

Lemma Part000_send_empty st : input st = "" → Part000.sendMessage st = st.
Proof. intros H. unfold Part000.sendMessage. by rewrite decide_True. Qed.

Lemma Part000_send_transcript st :
  wf st → input st ≠ "" →
  transcript (Part000.sendMessage st)
  = transcript st ++ [user_msg (input st); ai_msg ""].
Proof.
  intros [Hv _] Hin. unfold Part000.sendMessage, transcript.
  rewrite decide_False by done. simpl. by apply deref_push2.
Qed.

Lemma Part000_send_wf st : wf st → wf (Part000.sendMessage st).
Proof.
  intros [Hv Hn]. unfold Part000.sendMessage. case_decide; [done|].
  by apply wf_push2.
Qed.

Lemma Part000_read_transcript k aiText value st front m :
  wf st → transcript st = front ++ [m] →
  transcript (Part000.resume_read decode k aiText value st)
  = front ++ [{| role := role m; content := aiText +:+ decode value |}].
Proof.
  intros [Hv Hn] Ht. unfold transcript in Ht.
  apply deref_snoc_inv in Ht as (ms & l & Hms & <- & <-).
  unfold Part000.resume_read, Part000.updater, transcript.
  rewrite Hms, last_snoc. simpl. rewrite Hms in Hv, Hn.
  apply Forall_app in Hv as [_ Hl]. rewrite Forall_singleton in Hl.
  apply NoDup_app in Hn as (_ & Hn & _).
  apply (deref_alter_last
           (λ m, {| role := role m; content := aiText +:+ decode value |}));
    [done|].
  intros Hin. apply (Hn l Hin). by apply list_elem_of_singleton.
Qed.

Lemma Part000_read_nil k aiText value st :
  messages st = [] →
  Part000.resume_read decode k aiText value st = suspend k Rejected st.
Proof. intros H. unfold Part000.resume_read, Part000.updater. by rewrite H. Qed.

Lemma Part000_read_wf k aiText value st :
  wf st → wf (Part000.resume_read decode k aiText value st).
Proof.
  intros [Hv Hn]. unfold Part000.resume_read, Part000.updater.
  destruct (last (messages st)); [|done].
  split; [|done]. simpl. by rewrite length_alter.
Qed.

End Pieces.

(** ** The transcript after one event *)

Lemma write_last_nil f : write_last f [] = [].
Proof. done. Qed.

Lemma write_last_snoc f front m : write_last f (front ++ [m]) = front ++ [f m].
Proof.
  unfold write_last.
  replace (length (front ++ [m]) - 1) with (length front + 0)
    by (rewrite length_app; simpl; lia).
  by rewrite alter_app_r.
Qed.

Lemma write_last_length f t : length (write_last f t) = length t.
Proof. apply length_alter. Qed.

Section Steps.

Variable decode : list byte → string.

Lemma transcript_step v st e :
  wf st → transcript (step decode v st e) = transcript_after decode v st e.
Proof.
  intros Hwf. destruct e as [s| |k|k reply|k value|k|k]; simpl.
  - done.
  - destruct v; simpl.
    + case_decide; [by rewrite Vite001_send_empty
                   |by apply Vite001_send_transcript].
    + by apply Stream003_send_transcript.
    + case_decide; [by rewrite Part000_send_empty
                   |by apply Part000_send_transcript].
  - by destruct (calls st !! k) as [[]|].
  - destruct (calls st !! k) as [[]|]; try done.
    destruct v; [|done..]. by apply Vite001_json_transcript.
  - destruct (calls st !! k) as [[| |aiText| |]|]; try done.
    destruct v; simpl; [done| |].
    + destruct (transcript st) as [|m front _] eqn:Ht using rev_ind.
      * apply (f_equal length) in Ht. unfold transcript in Ht.
        rewrite deref_length in Ht. apply nil_length_inv in Ht.
        unfold transcript. by rewrite Stream003_read_nil.
      * rewrite write_last_snoc. by eapply Stream003_read_transcript.
    + destruct (transcript st) as [|m front _] eqn:Ht using rev_ind.
      * apply (f_equal length) in Ht. unfold transcript in Ht.
        rewrite deref_length in Ht. apply nil_length_inv in Ht.
        rewrite Part000_read_nil by done. unfold transcript; simpl.
        by rewrite Ht.
      * rewrite write_last_snoc. by eapply Part000_read_transcript.
  - by destruct (calls st !! k) as [[]|].
  - by destruct (calls st !! k) as [[]|].
Qed.

Lemma wf_step v st e : wf st → wf (step decode v st e).
Proof.
  intros Hwf. destruct e as [s| |k|k reply|k value|k|k]; simpl.
  - done.
  - destruct v; simpl;
      [by apply Vite001_send_wf|by apply Stream003_send_wf
      |by apply Part000_send_wf].
  - by destruct (calls st !! k) as [[]|].
  - destruct (calls st !! k) as [[]|]; try done.
    destruct v; [|done..]. by apply Vite001_json_wf.
  - destruct (calls st !! k) as [[]|]; try done.
    destruct v; simpl;
      [done|by apply Stream003_read_wf|by apply Part000_read_wf].
  - by destruct (calls st !! k) as [[]|].
  - by destruct (calls st !! k) as [[]|].
Qed.

Lemma run_snoc v es e st :
  run decode v (es ++ [e]) st = step decode v (run decode v es st) e.
Proof. unfold run. by rewrite fold_left_app. Qed.

Lemma run_app v es1 es2 st :
  run decode v (es1 ++ es2) st = run decode v es2 (run decode v es1 st).
Proof. unfold run. by rewrite fold_left_app. Qed.

Lemma wf_run v es st : wf st → wf (run decode v es st).
Proof.
  revert st. induction es as [|e es IH]; intros st Hwf; [done|].
  simpl. apply IH. by apply wf_step.
Qed.

Lemma reachable_init v : reachable decode v init.
Proof. by exists []. Qed.

Lemma reachable_step v st e :
  reachable decode v st → reachable decode v (step decode v st e).
Proof. intros [es ->]. exists (es ++ [e]). by rewrite run_snoc. Qed.

Lemma reachable_run v es st :
  reachable decode v st → reachable decode v (run decode v es st).
Proof. intros [es0 ->]. exists (es0 ++ es). by rewrite run_app. Qed.

(** Induction over the states the component can be in. *)
Lemma reachable_ind' v (P : App → Prop) :
  P init →
  (∀ st e, reachable decode v st → P st → P (step decode v st e)) →
  ∀ st, reachable decode v st → P st.
Proof.
  intros Hinit Hstep st [es ->].
  induction es as [|e es IH] using rev_ind; [done|].
  rewrite run_snoc. apply Hstep; [by exists es | done].
Qed.

Lemma wf_reachable v st : reachable decode v st → wf st.
Proof. intros [es ->]. apply wf_run, wf_init. Qed.

End Steps.

(** ** Submitting *)

Section Submit.

Variable decode : list byte → string.

Lemma submit_unfold v s st :
  submit decode v s st = sendMessage v (setInput s st).
Proof. done. Qed.

Lemma sendMessage_calls v st :
  input st ≠ "" → calls (sendMessage v st) = calls st ++ [AwaitFetch].
Proof.
  intros H. destruct v; simpl;
    unfold Vite001.sendMessage, Part000.sendMessage;
    try rewrite decide_False by done; done.
Qed.

Lemma sendMessage_requests v st :
  input st ≠ "" →
  requests (sendMessage v st)
  = requests st ++ [{| url := endpoint v; message := input st |}].
Proof.
  intros H. destruct v; unfold sendMessage, endpoint;
    [|by rewrite Stream003_send_requests|];
    unfold Vite001.sendMessage, Part000.sendMessage;
    rewrite decide_False by done; done.
Qed.

Lemma sendMessage_input v st : input st ≠ "" → input (sendMessage v st) = "".
Proof.
  intros H. destruct v; simpl;
    unfold Vite001.sendMessage, Part000.sendMessage;
    try rewrite decide_False by done; done.
Qed.

Lemma sendMessage_transcript v st :
  wf st → input st ≠ "" →
  transcript (sendMessage v st)
  = transcript st ++
      (if streaming v then [user_msg (input st); ai_msg ""]
       else [user_msg (input st)]).
Proof.
  intros Hwf H. destruct v; simpl;
    [by apply Vite001_send_transcript|by apply Stream003_send_transcript
    |by apply Part000_send_transcript].
Qed.

End Submit.

(** C1: for every non-empty [s], [submit(s)] appends to the transcript,
    within the click itself and so before any response can arrive (the
    new call is left suspended at [await fetch]): in the two streaming
    variants exactly the two entries [{role: "user", content: s}] and
    [{role: "ai", content: ""}]; in the whole-response variant only
    [{role: "user", content: s}]. *)
Theorem submit_appends_turn decode v st s :
  reachable decode v st → s ≠ "" →
  transcript (submit decode v s st)
  = transcript st ++
      (if streaming v then [user_msg s; ai_msg ""] else [user_msg s])
  ∧ calls (submit decode v s st) = calls st ++ [AwaitFetch]
  ∧ requests (submit decode v s st)
    = requests st ++ [{| url := endpoint v; message := s |}].
Proof.
  intros Hr Hs. rewrite submit_unfold.
  assert (wf (setInput s st)) as Hwf by by eapply wf_setInput, wf_reachable.
  split_and!.
  - by rewrite sendMessage_transcript.
  - by rewrite sendMessage_calls.
  - by rewrite sendMessage_requests.
Qed.

Lemma submit_appends_turn_witness :
  reachable decode_ascii WholeResponse init ∧ "hi" ≠ "" ∧
  transcript (submit decode_ascii WholeResponse "hi" init) = [user_msg "hi"].
Proof.
  split; [apply reachable_init|]. split; [done|].
  apply (submit_appends_turn decode_ascii WholeResponse init "hi");
    [apply reachable_init | done].
Defined.

(** C1 as stated fails: the whole-response variant appends one entry on
    submit, and the streaming variants tag the second entry "ai". *)
Lemma submit_two_entries_refuted :
  transcript (submit decode_ascii WholeResponse "hi" init)
  ≠ transcript init ++ [{| role := "user"; content := "hi" |};
                        {| role := "assistant"; content := "" |}]
  ∧ transcript (submit decode_ascii StreamInPlace "hi" init)
  ≠ transcript init ++ [{| role := "user"; content := "hi" |};
                        {| role := "assistant"; content := "" |}]
  ∧ transcript (submit decode_ascii StreamReplace "hi" init)
  ≠ transcript init ++ [{| role := "user"; content := "hi" |};
                        {| role := "assistant"; content := "" |}].
Proof. split_and!; by vm_compute. Qed.

(** C2: in the variants that open with [if (!input) return;] (part_000
    and 001-vite) submitting the empty string changes neither the
    transcript nor the calls nor the requests; every non-empty string,
    whitespace-only ones included, is sent in every variant. *)
Theorem submit_empty_is_noop decode v st :
  (v ≠ StreamReplace →
   submit decode v "" st = setInput "" st
   ∧ transcript (submit decode v "" st) = transcript st
   ∧ calls (submit decode v "" st) = calls st
   ∧ requests (submit decode v "" st) = requests st)
  ∧ (∀ s, s ≠ "" →
       requests (submit decode v s st)
       = requests st ++ [{| url := endpoint v; message := s |}]
       ∧ length (transcript st) < length (transcript (submit decode v s st))).
Proof.
  split.
  - intros Hv.
    assert (submit decode v "" st = setInput "" st) as Heq.
    { rewrite submit_unfold. destruct v; simpl;
        [by apply Vite001_send_empty|done|by apply Part000_send_empty]. }
    by rewrite Heq.
  - intros s Hs. rewrite submit_unfold. split.
    + by rewrite sendMessage_requests.
    + unfold transcript. rewrite !deref_length.
      destruct v; simpl; [| |];
        unfold Vite001.sendMessage, Part000.sendMessage;
        rewrite ?decide_False by done; simpl; rewrite length_app; simpl; lia.
Qed.

Lemma submit_empty_is_noop_witness :
  StreamInPlace ≠ StreamReplace ∧ " " ≠ ""
  ∧ transcript (submit decode_ascii StreamInPlace "" init) = transcript init
  ∧ requests (submit decode_ascii StreamInPlace " " init)
    = requests init ++ [{| url := endpoint StreamInPlace; message := " " |}].
Proof.
  destruct (submit_empty_is_noop decode_ascii StreamInPlace init) as [H1 H2].
  split_and!; [done|done| |].
  - by apply H1.
  - by apply H2.
Defined.

(** C2 as stated fails: a whitespace-only string is submitted. *)
Lemma submit_blank_refuted :
  transcript (submit decode_ascii StreamInPlace " " init) ≠ transcript init
  ∧ requests (submit decode_ascii StreamInPlace " " init) ≠ requests init
  ∧ transcript (submit decode_ascii WholeResponse " " init) ≠ transcript init.
Proof. split_and!; by vm_compute. Qed.

(** The variant without the guard sends the empty string as well. *)
Lemma Stream003_submit_empty :
  transcript (submit decode_ascii StreamReplace "" init)
  = [user_msg ""; ai_msg ""]
  ∧ requests (submit decode_ascii StreamReplace "" init)
  = [{| url := "/api/chat-stream"; message := "" |}].
Proof. done. Qed.

(** ** Invariants of the transcript *)

Lemma write_last_cases f (t : list Message) :
  (t = [] ∧ write_last f t = [])
  ∨ ∃ front m, t = front ++ [m] ∧ write_last f t = front ++ [f m].
Proof.
  destruct t as [|m front _] using rev_ind; [by left|].
  right. exists front, m. by rewrite write_last_snoc.
Qed.

Lemma write_last_Forall (P : Message → Prop) f t :
  (∀ m, P m → P (f m)) → Forall P t → Forall P (write_last f t).
Proof.
  intros Hf Ht. destruct (write_last_cases f t) as [[_ ->]|(fr & m & -> & ->)].
  - apply Forall_nil_2.
  - apply Forall_app in Ht as [Hfr Hm]. rewrite Forall_singleton in Hm.
    apply Forall_app. split; [done|]. apply Forall_singleton. by apply Hf.
Qed.

Lemma turns_roles_snoc n : turns_roles (S n) = turns_roles n ++ ["user"; "ai"].
Proof. induction n as [|n IH]; [done|]. simpl in *. by rewrite <-IH. Qed.

Lemma turns_roles_last n front r :
  turns_roles n = front ++ [r] → r = "ai".
Proof.
  destruct n as [|n]; [by destruct front|].
  rewrite turns_roles_snoc.
  change (turns_roles n ++ ["user"; "ai"])
    with (turns_roles n ++ ["user"] ++ ["ai"]).
  rewrite (assoc_L (++)). by intros [_ ?]%app_inj_tail.
Qed.

(** Writing the content of the last entry keeps every role. *)
Lemma roles_write_in_place c (t : list Message) :
  role <$> write_last (λ m, {| role := role m; content := c |}) t = role <$> t.
Proof.
  destruct (write_last_cases (λ m, {| role := role m; content := c |}) t)
    as [[-> ->]|(fr & m & -> & ->)]; [done|].
  by rewrite !fmap_app.
Qed.

(** Replacing the last entry of alternating turns by an "ai" message
    keeps every role. *)
Lemma roles_write_replace c n (t : list Message) :
  role <$> t = turns_roles n →
  role <$> write_last (λ _, ai_msg c) t = turns_roles n.
Proof.
  intros Ht.
  destruct (write_last_cases (λ _, ai_msg c) t)
    as [[-> ->]|(fr & m & -> & ->)]; [done|].
  rewrite <-Ht, !fmap_app. simpl. f_equal. f_equal.
  rewrite fmap_app in Ht. symmetry in Ht.
  by apply turns_roles_last in Ht.
Qed.

Lemma role_ok_user s : role_ok (user_msg s).
Proof. by left. Qed.

Lemma role_ok_ai s : role_ok (ai_msg s).
Proof. by right. Qed.

Section Invariants.

Variable decode : list byte → string.

Lemma roles_after v st e :
  Forall role_ok (transcript st) →
  Forall role_ok (transcript_after decode v st e).
Proof.
  intros Ht.
  assert (∀ new, Forall role_ok new → Forall role_ok (transcript st ++ new))
    as Happ by (intros; by apply Forall_app).
  destruct e as [s| |k|k reply|k value|k|k]; simpl; try done.
  - destruct v; repeat case_decide; try done; apply Happ;
      auto using Forall_cons_2, Forall_nil_2, role_ok_user, role_ok_ai.
  - destruct (calls st !! k) as [[]|]; try done. destruct v; try done.
    apply Happ. auto using Forall_cons_2, Forall_nil_2, role_ok_ai.
  - destruct (calls st !! k) as [[]|]; try done. destruct v; [done| |].
    + apply write_last_Forall; [|done]. intros. apply role_ok_ai.
    + by apply write_last_Forall.
Qed.

Lemma roles_reachable v st :
  reachable decode v st → Forall role_ok (transcript st).
Proof.
  intros Hr. induction Hr as [|st e Hr IH] using reachable_ind'.
  - apply Forall_nil_2.
  - rewrite transcript_step by by eapply wf_reachable.
    by apply roles_after.
Qed.

(** In the streaming variants entries come and stay in pairs, whatever
    the order in which the events of different calls arrive. *)
Lemma paired_after v st e n :
  streaming v = true →
  role <$> transcript st = turns_roles n →
  ∃ n', role <$> transcript_after decode v st e = turns_roles n'.
Proof.
  intros Hv Ht.
  assert (role <$> (transcript st ++ [user_msg (input st); ai_msg ""])
          = turns_roles (S n)) as Hpush
    by by rewrite turns_roles_snoc, fmap_app, Ht.
  destruct e as [s| |k|k reply|k value|k|k]; simpl; try by exists n.
  - destruct v; [done| |]; repeat case_decide;
      (by exists n) || (by exists (S n)).
  - destruct (calls st !! k) as [[]|]; try by exists n.
    destruct v; [done|by exists n..].
  - destruct (calls st !! k) as [[]|]; try by exists n.
    exists n. destruct v; [done| |].
    + by apply roles_write_replace.
    + by rewrite roles_write_in_place.
Qed.

Lemma paired_reachable v st :
  streaming v = true → reachable decode v st →
  ∃ n, role <$> transcript st = turns_roles n.
Proof.
  intros Hv Hr. induction Hr as [|st e Hr [n IH]] using reachable_ind'.
  - by exists 0.
  - rewrite transcript_step by by eapply wf_reachable.
    by eapply paired_after.
Qed.

End Invariants.

(** C3: in every reachable state of every variant, each entry of the
    transcript has role "user" or "ai" ("ai" is the tag the code gives
    the assistant's messages). *)
Theorem roles_user_or_ai decode v st i m :
  reachable decode v st →
  transcript st !! i = Some m →
  role m = "user" ∨ role m = "ai".
Proof.
  intros Hr Hi. apply roles_reachable in Hr.
  rewrite Forall_lookup in Hr. by apply (Hr i m).
Qed.

Lemma roles_user_or_ai_witness :
  reachable decode_ascii StreamInPlace (submit decode_ascii StreamInPlace "hi" init)
  ∧ transcript (submit decode_ascii StreamInPlace "hi" init) !! 1
    = Some (ai_msg "")
  ∧ (role (ai_msg "") = "user" ∨ role (ai_msg "") = "ai").
Proof.
  assert (reachable decode_ascii StreamInPlace
            (submit decode_ascii StreamInPlace "hi" init)) as Hr
    by by exists [Change "hi"; Click].
  split; [done|]. split; [done|].
  exact (roles_user_or_ai decode_ascii StreamInPlace _ 1 (ai_msg "") Hr eq_refl).
Defined.

(** C3 as stated fails: the second entry of a turn has role "ai", which is
    neither "user" nor "assistant". *)
Lemma role_assistant_refuted :
  transcript (submit decode_ascii StreamInPlace "hi" init) !! 1
  = Some {| role := "ai"; content := "" |}
  ∧ role {| role := "ai"; content := "" |} ≠ "user"
  ∧ role {| role := "ai"; content := "" |} ≠ "assistant".
Proof. done. Qed.

(** C8: from a reachable state of any variant, an event either appends
    entries at the end of the transcript or changes only the content of
    its last entry; so the length never decreases, and a chunk keeps the
    length and every entry but the last. *)
Theorem only_last_is_written decode v st e :
  reachable decode v st →
  ((∃ new, transcript (step decode v st e) = transcript st ++ new)
   ∨ (∃ front m c,
        transcript st = front ++ [m] ∧
        transcript (step decode v st e)
        = front ++ [{| role := role m; content := c |}]))
  ∧ length (transcript st) ≤ length (transcript (step decode v st e))
  ∧ (∀ k value, e = Read k value →
       length (transcript (step decode v st e)) = length (transcript st)
       ∧ ∀ i, i < length (transcript st) - 1 →
           transcript (step decode v st e) !! i = transcript st !! i).
Proof.
  intros Hr. rewrite transcript_step by by eapply wf_reachable.
  assert (∀ new, length (transcript st) ≤ length (transcript st ++ new))
    as Hlen by (intros; rewrite length_app; lia).
  assert (∃ new, transcript st = transcript st ++ new) as Hsame
    by (exists []; by rewrite app_nil_r).
  destruct e as [s| |k|k reply|k value|k|k]; simpl;
    try (split_and!; [by left|done|done]).
  - split_and!; [left| |done];
      destruct v; repeat case_decide; eauto.
  - split_and!; [left| |done];
      destruct (calls st !! k) as [[]|]; destruct v; eauto.
  - destruct (calls st !! k) as [[| |aiText| |]|];
      try (split_and!; [by left|done|done]).
    destruct v; [split_and!; [by left|done|done]| |].
    + (* the last entry is replaced by an "ai" message: it was one *)
      destruct (paired_reachable decode StreamReplace st eq_refl Hr) as [n Hn].
      split_and!.
      * destruct (write_last_cases
                    (λ _, ai_msg (aiText +:+ decode value)) (transcript st))
          as [[-> ->]|(fr & m & Ht & ->)]; [left; by exists []|].
        right. exists fr, m, (aiText +:+ decode value). split; [done|].
        rewrite Ht, fmap_app in Hn. symmetry in Hn.
        apply turns_roles_last in Hn. simpl in Hn. by rewrite Hn.
      * by rewrite write_last_length.
      * intros _ _ _. split; [by rewrite write_last_length|].
        intros i Hi. unfold write_last. apply list_lookup_alter_ne. lia.
    + split_and!.
      * destruct (write_last_cases
                    (λ m, {| role := role m;
                             content := aiText +:+ decode value |})
                    (transcript st))
          as [[-> ->]|(fr & m & Ht & ->)]; [left; by exists []|].
        right. by exists fr, m, (aiText +:+ decode value).
      * by rewrite write_last_length.
      * intros _ _ _. split; [by rewrite write_last_length|].
        intros i Hi. unfold write_last. apply list_lookup_alter_ne. lia.
Qed.

Lemma only_last_is_written_witness :
  reachable decode_ascii StreamInPlace
    (run decode_ascii StreamInPlace [Change "hi"; Click; Response 0] init)
  ∧ length
      (transcript
         (step decode_ascii StreamInPlace
            (run decode_ascii StreamInPlace [Change "hi"; Click; Response 0]
               init)
            (Read 0 (bytes "He"))))
    = length
        (transcript
           (run decode_ascii StreamInPlace [Change "hi"; Click; Response 0]
              init)).
Proof.
  assert (reachable decode_ascii StreamInPlace
            (run decode_ascii StreamInPlace [Change "hi"; Click; Response 0]
               init)) as Hr
    by by exists [Change "hi"; Click; Response 0].
  split; [done|].
  destruct (only_last_is_written decode_ascii StreamInPlace _
              (Read 0 (bytes "He")) Hr) as (_ & _ & H).
  destruct (H 0 (bytes "He") eq_refl) as [Hlen _].
  exact Hlen.
Defined.

(** ** Text accumulation *)

Lemma append_assoc (a b c : string) : (a +:+ b) +:+ c = a +:+ (b +:+ c).
Proof.
  induction a as [|x a IH]; [done|].
  change (String x ((a +:+ b) +:+ c) = String x (a +:+ (b +:+ c))).
  by rewrite IH.
Qed.

Lemma append_nil_r (a : string) : a +:+ "" = a.
Proof.
  induction a as [|x a IH]; [done|].
  change (String x (a +:+ "") = String x a). by rewrite IH.
Qed.

Lemma concat_text_cons t texts : concat_text (t :: texts) = t +:+ concat_text texts.
Proof. done. Qed.

Lemma concat_text_app l1 l2 :
  concat_text (l1 ++ l2) = concat_text l1 +:+ concat_text l2.
Proof.
  induction l1 as [|t l1 IH]; [done|].
  rewrite <-app_comm_cons, !concat_text_cons, IH. by rewrite append_assoc.
Qed.

Lemma accumulate_length acc texts : length (accumulate acc texts) = length texts.
Proof. revert acc. induction texts as [|t texts IH]; intros acc; simpl; auto. Qed.

(** The [j]-th value of the accumulator is what it held at first followed
    by the first [j+1] texts. *)
Lemma accumulate_lookup acc texts j :
  j < length texts →
  accumulate acc texts !! j = Some (acc +:+ concat_text (take (S j) texts)).
Proof.
  revert acc j. induction texts as [|t texts IH]; intros acc j Hj; simpl in Hj.
  - lia.
  - destruct j as [|j].
    + unfold concat_text. simpl. by rewrite append_nil_r.
    + change (accumulate (acc +:+ t) texts !! j
              = Some (acc +:+ concat_text (t :: take (S j) texts))).
      rewrite IH by lia. by rewrite concat_text_cons, append_assoc.
Qed.

(** ** One call on its own *)

Section Call.

Variable decode : list byte → string.

Lemma lookup_calls_new (cs : list cont) c : (cs ++ [c]) !! length cs = Some c.
Proof. by rewrite lookup_app_r, Nat.sub_diag by lia. Qed.

Lemma lookup_calls_set (cs : list cont) k c c' :
  cs !! k = Some c → <[k := c']> cs !! k = Some c'.
Proof.
  intros H. apply list_lookup_insert_eq. by eapply lookup_lt_Some.
Qed.

Lemma transcript_turn_snoc (T : list Message) u a :
  T ++ [u; a] = (T ++ [u]) ++ [a].
Proof. by rewrite <-(assoc_L (++)). Qed.

Lemma reading_step v k aiText T s st value :
  streaming v = true →
  reading k aiText T s st →
  reading k (aiText +:+ decode value) T s (step decode v st (Read k value)).
Proof.
  intros Hv (Hwf & Hk & Hin & Ht).
  assert (messages st ≠ []) as Hms.
  { intros Hnil. unfold transcript in Ht. rewrite Hnil in Ht.
    by destruct T. }
  split_and!.
  - by apply wf_step.
  - simpl. rewrite Hk. destruct v; [done| |]; simpl.
    + unfold Stream003.resume_read.
      destruct (Stream003.updater _ _ _). simpl. by eapply lookup_calls_set.
    + unfold Part000.resume_read, Part000.updater.
      destruct (last (messages st)) eqn:Hl; [simpl; by eapply lookup_calls_set|].
      by apply last_None in Hl.
  - simpl. rewrite Hk. destruct v; [done| |]; simpl.
    + unfold Stream003.resume_read. by destruct (Stream003.updater _ _ _).
    + unfold Part000.resume_read, Part000.updater.
      by destruct (last (messages st)).
  - rewrite transcript_step by done. simpl. rewrite Hk, Ht.
    rewrite !transcript_turn_snoc.
    destruct v; [done|by rewrite write_last_snoc..].
Qed.

(** The states a run of chunks goes through. *)
Lemma reading_trace v k T s cs : ∀ aiText st,
  streaming v = true →
  reading k aiText T s st →
  transcript <$> trace decode v (Read k <$> cs) st
  = (λ c, T ++ [user_msg s; ai_msg c]) <$> accumulate aiText (decode <$> cs).
Proof.
  induction cs as [|c cs IH]; intros aiText st Hv Hrd; [done|].
  simpl. f_equal.
  - by apply (reading_step v k aiText T s st c Hv Hrd).
  - apply IH; [done|]. by apply reading_step.
Qed.

Lemma reading_run v k T s cs : ∀ aiText st,
  streaming v = true →
  reading k aiText T s st →
  reading k (aiText +:+ concat_text (decode <$> cs)) T s
    (run decode v (Read k <$> cs) st).
Proof.
  induction cs as [|c cs IH]; intros aiText st Hv Hrd.
  - simpl. unfold concat_text. simpl. by rewrite append_nil_r.
  - rewrite fmap_cons, concat_text_cons, <-append_assoc.
    apply IH; [done|]. by apply reading_step.
Qed.

(** From a submit to the first [reader.read()]. *)
Lemma reading_start v s st :
  streaming v = true → wf st → s ≠ "" →
  reading (length (calls st)) "" (transcript st) s
    (run decode v [Change s; Click; Response (length (calls st))] st).
Proof.
  intros Hv Hwf Hs.
  assert (wf (setInput s st)) as Hwf' by done.
  assert (calls (sendMessage v (setInput s st)) !! length (calls st)
          = Some AwaitFetch) as Hk
    by (rewrite sendMessage_calls by done; apply lookup_calls_new).
  assert (run decode v [Change s; Click; Response (length (calls st))] st
          = suspend (length (calls st)) (resume_fetch v)
              (sendMessage v (setInput s st))) as ->.
  { simpl. by rewrite Hk. }
  split_and!.
  - apply wf_suspend. change (wf (step decode v (setInput s st) Click)).
    by apply wf_step.
  - simpl. rewrite sendMessage_calls by done. simpl.
    erewrite lookup_calls_set; [by destruct v|apply lookup_calls_new].
  - simpl. by rewrite sendMessage_input.
  - change (transcript (sendMessage v (setInput s st))
            = transcript st ++ [user_msg s; ai_msg ""]).
    rewrite sendMessage_transcript by done. by rewrite Hv.
Qed.

End Call.

Section Streaming.

Variable decode : list byte → string.

Lemma last_content_turn (T : list Message) u c st :
  transcript st = T ++ [u; ai_msg c] → last_content st = Some c.
Proof.
  intros Ht. unfold last_content.
  by rewrite Ht, transcript_turn_snoc, last_snoc.
Qed.

Lemma last_content_trace (T : list Message) u (l : list App) (cs : list string) :
  transcript <$> l = (λ c, T ++ [u; ai_msg c]) <$> cs →
  last_content <$> l = Some <$> cs.
Proof.
  revert cs. induction l as [|st l IH]; intros [|c cs] H; try done.
  rewrite !fmap_cons in H. injection H as Hst Hl.
  rewrite !fmap_cons. f_equal; [by eapply last_content_turn | by apply IH].
Qed.

Lemma step_Done_transcript v k st :
  transcript (step decode v st (Done k)) = transcript st.
Proof. simpl. by destruct (calls st !! k) as [[]|]. Qed.

(** A whole streamed turn, from a submit to the end of the stream. *)
Lemma stream_turn v s st cs :
  streaming v = true → wf st → s ≠ "" →
  run_turn decode v st (s, Chunks cs)
  = run decode v ((Read (length (calls st)) <$> cs) ++ [Done (length (calls st))])
      (run decode v [Change s; Click; Response (length (calls st))] st)
  ∧ transcript (run_turn decode v st (s, Chunks cs))
    = transcript st ++ [user_msg s; ai_msg (concat_text (decode <$> cs))].
Proof.
  intros Hv Hwf Hs.
  assert (run_turn decode v st (s, Chunks cs)
          = run decode v ((Read (length (calls st)) <$> cs)
                          ++ [Done (length (calls st))])
              (run decode v [Change s; Click; Response (length (calls st))] st))
    as Heq.
  { unfold run_turn. rewrite decide_False; [done|].
    rewrite submit_unfold. simpl fst.
    rewrite sendMessage_calls, length_app by done. simpl. lia. }
  split; [done|]. rewrite Heq, run_snoc, step_Done_transcript.
  pose proof (reading_start decode v s st Hv Hwf Hs) as Hrd.
  apply (reading_run decode v _ _ _ cs) in Hrd; [|done].
  by destruct Hrd as (_ & _ & _ & ->).
Qed.

End Streaming.

(** In the schedule with a render after every event: in a streaming
    variant, after a submit of a non-empty [s] the chunks of the answer
    leave, one after the other, the running concatenations of their
    decoded texts in the last entry of the transcript; the end of the
    stream changes nothing. *)
Theorem stream_content_accumulates decode v st s cs :
  streaming v = true → reachable decode v st → s ≠ "" →
  transcript <$>
    trace decode v (Read (length (calls st)) <$> cs)
      (run decode v [Change s; Click; Response (length (calls st))] st)
  = (λ c, transcript st ++ [user_msg s; ai_msg c])
      <$> accumulate "" (decode <$> cs)
  ∧ (∀ j, j < length cs →
       (last_content <$>
          trace decode v (Read (length (calls st)) <$> cs)
            (run decode v [Change s; Click; Response (length (calls st))] st))
       !! j
       = Some (Some (concat_text (decode <$> take (S j) cs))))
  ∧ transcript
      (run decode v
         ((Read (length (calls st)) <$> cs) ++ [Done (length (calls st))])
         (run decode v [Change s; Click; Response (length (calls st))] st))
    = transcript st ++ [user_msg s; ai_msg (concat_text (decode <$> cs))]
  ∧ (∀ c1 c2, cs = [c1; c2] → decode c1 = "He" → decode c2 = "llo" →
       last_content <$>
         trace decode v (Read (length (calls st)) <$> cs)
           (run decode v [Change s; Click; Response (length (calls st))] st)
       = [Some "He"; Some "Hello"]).
Proof.
  intros Hv Hr Hs. apply wf_reachable in Hr as Hwf.
  pose proof (reading_start decode v s st Hv Hwf Hs) as Hrd.
  pose proof (reading_trace decode v _ _ _ cs _ _ Hv Hrd) as Htr.
  apply last_content_trace in Htr as Hlc.
  split_and!.
  - done.
  - intros j Hj. rewrite Hlc, list_lookup_fmap, accumulate_lookup
      by by rewrite length_fmap.
    by rewrite fmap_take.
  - destruct (stream_turn decode v s st cs Hv Hwf Hs) as [<- ->]. done.
  - intros c1 c2 -> H1 H2. rewrite Hlc. simpl. by rewrite H1, H2.
Qed.

Lemma stream_content_accumulates_witness :
  streaming StreamInPlace = true ∧ reachable decode_ascii StreamInPlace init
  ∧ "hi" ≠ "" ∧ decode_ascii (bytes "He") = "He"
  ∧ decode_ascii (bytes "llo") = "llo"
  ∧ last_content <$>
      trace decode_ascii StreamInPlace
        (Read (length (calls init)) <$> [bytes "He"; bytes "llo"])
        (run decode_ascii StreamInPlace
           [Change "hi"; Click; Response (length (calls init))] init)
    = [Some "He"; Some "Hello"].
Proof.
  split_and!; [done|apply reachable_init|done|done|done|].
  destruct (stream_content_accumulates decode_ascii StreamInPlace init "hi"
              [bytes "He"; bytes "llo"] eq_refl (reachable_init _ _)
              ltac:(done)) as (_ & _ & _ & H).
  exact (H (bytes "He") (bytes "llo") eq_refl eq_refl eq_refl).
Defined.

(** C6: in a streaming variant the transcript a turn leaves depends on
    the chunks only through the concatenation of their decoded texts: two
    chunk sequences with equal concatenations leave the same transcript,
    whose last content is that concatenation. *)
Theorem final_content_ignores_chunking decode v st s cs1 cs2 :
  streaming v = true → reachable decode v st → s ≠ "" →
  concat_text (decode <$> cs1) = concat_text (decode <$> cs2) →
  transcript (run_turn decode v st (s, Chunks cs1))
  = transcript (run_turn decode v st (s, Chunks cs2))
  ∧ last_content (run_turn decode v st (s, Chunks cs1))
    = Some (concat_text (decode <$> cs1))
  ∧ last_content (run_turn decode v st (s, Chunks cs2))
    = Some (concat_text (decode <$> cs1)).
Proof.
  intros Hv Hr Hs Heq. apply wf_reachable in Hr as Hwf.
  destruct (stream_turn decode v s st cs1 Hv Hwf Hs) as [_ H1].
  destruct (stream_turn decode v s st cs2 Hv Hwf Hs) as [_ H2].
  split_and!.
  - by rewrite H1, H2, Heq.
  - by eapply last_content_turn.
  - rewrite Heq. by eapply last_content_turn.
Qed.

Lemma final_content_ignores_chunking_witness :
  streaming StreamReplace = true ∧ reachable decode_ascii StreamReplace init
  ∧ "hi" ≠ ""
  ∧ concat_text (decode_ascii <$> [bytes "He"; bytes "llo"])
    = concat_text
        (decode_ascii <$> [bytes "H"; bytes "e"; bytes "l"; bytes "l"; bytes "o"])
  ∧ last_content
      (run_turn decode_ascii StreamReplace init
         ("hi", Chunks [bytes "H"; bytes "e"; bytes "l"; bytes "l"; bytes "o"]))
    = Some "Hello".
Proof.
  split_and!; [done|apply reachable_init|done|done|].
  destruct (final_content_ignores_chunking decode_ascii StreamReplace init
              "hi" [bytes "He"; bytes "llo"]
              [bytes "H"; bytes "e"; bytes "l"; bytes "l"; bytes "o"]
              eq_refl (reachable_init _ _) ltac:(done) eq_refl)
    as (_ & _ & H).
  exact H.
Defined.

Section Turn.

Variable decode : list byte → string.

(** The state a submit of a non-empty text leaves. *)
Lemma submit_state v s st :
  wf st → s ≠ "" →
  wf (submit decode v s st)
  ∧ calls (submit decode v s st) !! length (calls st) = Some AwaitFetch
  ∧ input (submit decode v s st) = ""
  ∧ transcript (submit decode v s st)
    = transcript st ++
        (if streaming v then [user_msg s; ai_msg ""] else [user_msg s]).
Proof.
  intros Hwf Hs. split_and!.
  - by do 2 apply wf_step.
  - rewrite submit_unfold, sendMessage_calls by done. apply lookup_calls_new.
  - by rewrite submit_unfold, sendMessage_input.
  - by rewrite submit_unfold, sendMessage_transcript.
Qed.

Lemma step_Response v k st :
  calls st !! k = Some AwaitFetch →
  step decode v st (Response k) = suspend k (resume_fetch v) st.
Proof. intros H. simpl. by rewrite H. Qed.

Lemma step_Throw v k c st :
  calls st !! k = Some c → c ≠ Returned → c ≠ Rejected →
  step decode v st (Throw k) = suspend k Rejected st.
Proof. intros H ??. simpl. rewrite H. by destruct c. Qed.

(** A call that has returned or was rejected takes no further event. *)
Lemma step_settled v k c st e :
  calls st !! k = Some c → c = Returned ∨ c = Rejected →
  event_call e = Some k →
  step decode v st e = st.
Proof.
  intros Hk Hc He. destruct e; simpl in He; try done;
    injection He as ->; simpl; rewrite Hk; by destruct Hc as [-> | ->].
Qed.

(** The whole-response call has no read loop. *)
Lemma whole_ignores_chunks k cs : ∀ st,
  run decode WholeResponse (Read k <$> cs) st = st.
Proof.
  induction cs as [|c cs IH]; intros st; [done|].
  rewrite fmap_cons. simpl. rewrite <-(IH st) at 2.
  by destruct (calls st !! k) as [[]|].
Qed.

End Turn.

(** C4: in the whole-response variant a submit of a non-empty [s] appends
    the user message only; when the body [{"reply": r}] has arrived the
    entry [{role: "ai", content: r}] is appended, in one update, and is
    then the last entry.  No empty message is created before. *)
Theorem whole_reply_appended decode st s reply :
  reachable decode WholeResponse st → s ≠ "" →
  transcript <$>
    trace decode WholeResponse
      [Change s; Click; Response (length (calls st));
       Json (length (calls st)) reply] st
  = [transcript st;
     transcript st ++ [user_msg s];
     transcript st ++ [user_msg s];
     transcript st ++ [user_msg s; ai_msg reply]]
  ∧ last (transcript
            (run decode WholeResponse
               [Change s; Click; Response (length (calls st));
                Json (length (calls st)) reply] st))
    = Some (ai_msg reply)
  ∧ (∀ st' k, reachable decode WholeResponse st' →
       calls st' !! k = Some AwaitJson →
       transcript (step decode WholeResponse st' (Json k reply))
       = transcript st' ++ [ai_msg reply]).
Proof.
  intros Hr Hs. apply wf_reachable in Hr as Hwf.
  destruct (submit_state decode WholeResponse s st Hwf Hs)
    as (Hwf1 & Hk1 & _ & Ht1).
  assert (∀ st' k, wf st' → calls st' !! k = Some AwaitJson →
            transcript (step decode WholeResponse st' (Json k reply))
            = transcript st' ++ [ai_msg reply]) as Hjson.
  { intros st' k Hwf' Hk. rewrite transcript_step by done. simpl.
    by rewrite Hk. }
  set (k := length (calls st)) in *.
  set (st1 := submit decode WholeResponse s st) in *.
  assert (step decode WholeResponse st1 (Response k) = suspend k AwaitJson st1)
    as H2 by by apply step_Response.
  assert (calls (suspend k AwaitJson st1) !! k = Some AwaitJson) as Hk2
    by (simpl; by eapply lookup_calls_set).
  assert (transcript <$>
            trace decode WholeResponse
              [Change s; Click; Response k; Json k reply] st
          = [transcript st;
             transcript st ++ [user_msg s];
             transcript st ++ [user_msg s];
             transcript st ++ [user_msg s; ai_msg reply]]) as Htr.
  { unfold trace. rewrite !fmap_cons.
    change (step decode WholeResponse (step decode WholeResponse st (Change s))
              Click) with st1.
    rewrite H2, Hjson by done.
    change (transcript (suspend k AwaitJson st1)) with (transcript st1).
    change (transcript (step decode WholeResponse st (Change s)))
      with (transcript st).
    rewrite Ht1. simpl. by rewrite <-(assoc_L (++)). }
  split_and!.
  - done.
  - change (run decode WholeResponse
              [Change s; Click; Response k; Json k reply] st)
      with (step decode WholeResponse
              (step decode WholeResponse st1 (Response k)) (Json k reply)).
    rewrite H2, Hjson by done.
    change (transcript (suspend k AwaitJson st1)) with (transcript st1).
    by rewrite last_snoc.
  - intros st' k' Hr' Hk'. apply Hjson; [by eapply wf_reachable|done].
Qed.

Lemma whole_reply_appended_witness :
  reachable decode_ascii WholeResponse init ∧ "hi" ≠ ""
  ∧ last (transcript
            (run decode_ascii WholeResponse
               [Change "hi"; Click; Response (length (calls init));
                Json (length (calls init)) "hello"] init))
    = Some (ai_msg "hello").
Proof.
  split_and!; [apply reachable_init|done|].
  destruct (whole_reply_appended decode_ascii init "hi" "hello"
              (reachable_init _ _) ltac:(done)) as (_ & H & _).
  exact H.
Defined.

(** C4 as stated fails: the submit creates no empty assistant message, and
    the entry that the reply adds has role "ai". *)
Lemma whole_reply_mutation_refuted :
  transcript (submit decode_ascii WholeResponse "hi" init)
  = [{| role := "user"; content := "hi" |}]
  ∧ last (transcript
            (run decode_ascii WholeResponse
               [Change "hi"; Click; Response 0; Json 0 "hello"] init))
    ≠ Some {| role := "assistant"; content := "hello" |}.
Proof. split; by vm_compute. Qed.

(** C9: a call that fails after a submit of a non-empty [s] is left
    rejected and takes no further event (nothing repairs the transcript);
    the input stays cleared.  In the streaming variants the user message
    and its "ai" message remain, the latter holding the chunks received
    before the failure (none if [fetch] failed); in the whole-response
    variant only the user message remains. *)
Theorem failure_is_unhandled decode v st s received :
  reachable decode v st → s ≠ "" →
  transcript
    (run decode v
       ([Change s; Click] ++ failure_events (length (calls st)) received) st)
  = transcript st ++
      (if streaming v
       then [user_msg s;
             ai_msg (match received with
                     | None => ""
                     | Some cs => concat_text (decode <$> cs)
                     end)]
       else [user_msg s])
  ∧ input
      (run decode v
         ([Change s; Click] ++ failure_events (length (calls st)) received) st)
    = ""
  ∧ calls
      (run decode v
         ([Change s; Click] ++ failure_events (length (calls st)) received) st)
    !! length (calls st) = Some Rejected
  ∧ (∀ e, event_call e = Some (length (calls st)) →
       step decode v
         (run decode v
            ([Change s; Click] ++ failure_events (length (calls st)) received)
            st) e
       = run decode v
           ([Change s; Click] ++ failure_events (length (calls st)) received)
           st).
Proof.
  intros Hr Hs. apply wf_reachable in Hr as Hwf.
  assert (∃ st0 c,
            run decode v ([Change s; Click] ++ failure_events (length (calls st)) received) st
            = suspend (length (calls st)) Rejected st0
            ∧ calls st0 !! (length (calls st)) = Some c ∧ input st0 = ""
            ∧ transcript st0
              = transcript st ++
                  (if streaming v
                   then [user_msg s;
                         ai_msg (match received with
                                 | None => ""
                                 | Some cs => concat_text (decode <$> cs)
                                 end)]
                   else [user_msg s]))
    as (st0 & c & -> & Hk & Hin & Ht).
  { destruct (submit_state decode v s st Hwf Hs) as (Hwf1 & Hk1 & Hin1 & Ht1).
    destruct received as [cs|].
    - change ([Change s; Click] ++ failure_events (length (calls st)) (Some cs))
        with ([Change s; Click; Response (length (calls st))] ++ (Read (length (calls st)) <$> cs) ++ [Throw (length (calls st))]).
      rewrite run_app, run_snoc.
      destruct (streaming v) eqn:Hv.
      + pose proof (reading_start decode v s st Hv Hwf Hs) as Hrd.
        apply (reading_run decode v _ _ _ cs) in Hrd; [|done].
        destruct Hrd as (_ & Hk3 & Hin3 & Ht3).
        eexists _, _. split; [by eapply step_Throw|]. by rewrite Ht3.
      + destruct v; try done.
        change (run decode WholeResponse [Change s; Click; Response (length (calls st))] st)
          with (step decode WholeResponse
                  (submit decode WholeResponse s st) (Response (length (calls st)))).
        rewrite step_Response by done. rewrite whole_ignores_chunks.
        assert (calls (suspend (length (calls st)) (resume_fetch WholeResponse)
                         (submit decode WholeResponse s st)) !! (length (calls st))
                = Some AwaitJson) as Hk2
          by (simpl; by eapply lookup_calls_set).
        eexists _, _. split; [by eapply (step_Throw decode _ _ AwaitJson)|].
        done.
    - change (run decode v ([Change s; Click] ++ failure_events (length (calls st)) None) st)
        with (step decode v (submit decode v s st) (Throw (length (calls st)))).
      eexists _, _. split; [by eapply (step_Throw decode _ _ AwaitFetch)|].
      split_and!; [done..|]. rewrite Ht1. by destruct (streaming v). }
  assert (calls (suspend (length (calls st)) Rejected st0) !! (length (calls st)) = Some Rejected) as Hk'
    by (simpl; by eapply lookup_calls_set).
  split_and!; try done.
  intros e He. eapply step_settled; [done|by right|done].
Qed.

Lemma failure_is_unhandled_witness :
  reachable decode_ascii StreamInPlace init ∧ "hi" ≠ ""
  ∧ transcript
      (run decode_ascii StreamInPlace
         ([Change "hi"; Click]
          ++ failure_events (length (calls init)) (Some [bytes "He"])) init)
    = transcript init ++ [user_msg "hi"; ai_msg "He"].
Proof.
  split_and!; [apply reachable_init|done|].
  destruct (failure_is_unhandled decode_ascii StreamInPlace init "hi"
              (Some [bytes "He"]) (reachable_init _ _) ltac:(done))
    as (H & _).
  exact H.
Defined.

(** C9 as stated fails in the whole-response variant: after a failed call
    the transcript holds the user message and no message paired with it. *)
Lemma failure_keeps_pair_refuted :
  transcript
    (run decode_ascii WholeResponse [Change "hi"; Click; Throw 0] init)
  = [{| role := "user"; content := "hi" |}]
  ∧ transcript
      (run decode_ascii WholeResponse
         [Change "hi"; Click; Response 0; Throw 0] init)
    = [{| role := "user"; content := "hi" |}].
Proof. split; by vm_compute. Qed.

(** ** Sequences of turns *)

Lemma alternating_begins (t : list Message) :
  alternating t → t ≠ [] →
  ∃ u a rest, t = u :: a :: rest ∧ role u = "user" ∧ role a = "ai".
Proof.
  intros [n Hn] Ht. destruct n as [|n]; [by destruct t|].
  destruct t as [|u [|a rest]]; try done.
  simpl in Hn. injection Hn as Hu Ha _. by exists u, a, rest.
Qed.

Lemma alternating_push (t : list Message) s c :
  alternating t → alternating (t ++ [user_msg s; ai_msg c]).
Proof.
  intros [n Hn]. exists (S n). by rewrite turns_roles_snoc, fmap_app, Hn.
Qed.

Section Turns.

Variable decode : list byte → string.

(** A whole turn of the whole-response variant. *)
Lemma whole_turn s reply st :
  wf st → s ≠ "" →
  wf (run_turn decode WholeResponse st (s, Reply reply))
  ∧ transcript (run_turn decode WholeResponse st (s, Reply reply))
    = transcript st ++ [user_msg s; ai_msg reply].
Proof.
  intros Hwf Hs.
  destruct (submit_state decode WholeResponse s st Hwf Hs)
    as (Hwf1 & Hk1 & _ & Ht1).
  assert (run_turn decode WholeResponse st (s, Reply reply)
          = step decode WholeResponse
              (suspend (length (calls st)) AwaitJson
                 (submit decode WholeResponse s st))
              (Json (length (calls st)) reply)) as ->.
  { unfold run_turn. rewrite decide_False.
    - simpl fst. simpl snd. unfold answer_events.
      change (run decode WholeResponse [?e1; ?e2] ?x)
        with (step decode WholeResponse (step decode WholeResponse x e1) e2).
      by rewrite step_Response.
    - simpl fst. rewrite submit_unfold, sendMessage_calls, length_app by done.
      simpl. lia. }
  assert (calls (suspend (length (calls st)) AwaitJson
                   (submit decode WholeResponse s st)) !! length (calls st)
          = Some AwaitJson) as Hk2
    by (simpl; by eapply lookup_calls_set).
  split.
  - by apply wf_step, wf_suspend.
  - rewrite transcript_step by by apply wf_suspend.
    unfold transcript_after. rewrite Hk2.
    change (transcript (suspend _ _ ?x)) with (transcript x).
    rewrite Ht1. simpl. by rewrite <-(assoc_L (++)).
Qed.

(** A turn whose input the guard drops. *)
Lemma guarded_turn_empty v a st :
  v ≠ StreamReplace →
  run_turn decode v st ("", a) = setInput "" st.
Proof.
  intros Hv.
  assert (submit decode v "" st = setInput "" st) as Heq.
  { rewrite submit_unfold. destruct v; simpl;
      [by apply Vite001_send_empty|done|by apply Part000_send_empty]. }
  unfold run_turn. simpl fst. rewrite Heq. by rewrite decide_True.
Qed.

Lemma run_turn_reachable v st t :
  reachable decode v st → reachable decode v (run_turn decode v st t).
Proof.
  intros Hr. unfold run_turn. case_decide.
  - by do 2 apply reachable_step.
  - apply reachable_run. by do 2 apply reachable_step.
Qed.

Lemma run_turns_reachable v ts : ∀ st,
  reachable decode v st → reachable decode v (run_turns decode v ts st).
Proof.
  induction ts as [|t ts IH]; intros st Hr; [done|].
  apply IH. by apply run_turn_reachable.
Qed.

Lemma whole_turns_alternate ts : ∀ st,
  Forall (λ t, fits WholeResponse t.2 = true) ts →
  wf st → alternating (transcript st) →
  alternating (transcript (run_turns decode WholeResponse ts st)).
Proof.
  induction ts as [|[s a] ts IH]; intros st Hfit Hwf Halt; [done|].
  apply Forall_cons in Hfit as [Ha Hfit]. simpl in Ha.
  destruct a as [cs|reply]; [done|].
  change (run_turns decode WholeResponse ((s, Reply reply) :: ts) st)
    with (run_turns decode WholeResponse ts
            (run_turn decode WholeResponse st (s, Reply reply))).
  destruct (decide (s = "")) as [->|Hs].
  - rewrite guarded_turn_empty by done. by apply IH.
  - destruct (whole_turn s reply st Hwf Hs) as [Hwf' Ht'].
    apply IH; [done..|]. rewrite Ht'. by apply alternating_push.
Qed.

End Turns.

(** C7: after any sequence of turns, each run to its end with no other
    event in between, the roles of the transcript alternate "user", "ai",
    "user", "ai", ... from index 0; in the streaming variants this holds
    in every reachable state.  A transcript that alternates and is not
    empty begins with a user message followed by an "ai" message. *)
Theorem turns_alternate decode v ts :
  Forall (λ t, fits v t.2 = true) ts →
  alternating (transcript (run_turns decode v ts init))
  ∧ (transcript (run_turns decode v ts init) ≠ [] →
     ∃ u a rest,
       transcript (run_turns decode v ts init) = u :: a :: rest
       ∧ role u = "user" ∧ role a = "ai")
  ∧ (streaming v = true → ∀ st,
       reachable decode v st →
       alternating (transcript st)
       ∧ (transcript st ≠ [] →
          ∃ u a rest,
            transcript st = u :: a :: rest ∧ role u = "user" ∧ role a = "ai")).
Proof.
  intros Hfit.
  assert (alternating (transcript (run_turns decode v ts init))) as Halt.
  { destruct (streaming v) eqn:Hv.
    - apply (paired_reachable decode v); [done|].
      apply run_turns_reachable, reachable_init.
    - destruct v; try done.
      apply whole_turns_alternate; [done|apply wf_init|by exists 0]. }
  split_and!.
  - done.
  - by apply alternating_begins.
  - intros Hv st Hr.
    assert (alternating (transcript st)) as Hst
      by by apply (paired_reachable decode v).
    split; [done|]. by apply alternating_begins.
Qed.

Lemma turns_alternate_witness :
  Forall (λ t : string * answer, fits WholeResponse t.2 = true)
    [("hi", Reply "hello"); ("", Reply "none"); ("yo", Reply "ok")]
  ∧ alternating
      (transcript
         (run_turns decode_ascii WholeResponse
            [("hi", Reply "hello"); ("", Reply "none"); ("yo", Reply "ok")]
            init)).
Proof.
  assert (Forall (λ t : string * answer, fits WholeResponse t.2 = true)
            [("hi", Reply "hello"); ("", Reply "none"); ("yo", Reply "ok")])
    as Hfit by (repeat constructor).
  split; [done|].
  destruct (turns_alternate decode_ascii WholeResponse _ Hfit) as [H _].
  exact H.
Defined.

(** C7 as stated fails: the second role of a turn is "ai", not
    "assistant"; and in the whole-response variant the state between a
    submit and its reply holds a user message with no message paired to
    it. *)
Lemma turns_alternate_refuted :
  role <$>
    transcript
      (run_turns decode_ascii StreamInPlace [("hi", Chunks [bytes "ok"])] init)
  ≠ ["user"; "assistant"]
  ∧ transcript (submit decode_ascii WholeResponse "hi" init)
    = [{| role := "user"; content := "hi" |}]
  ∧ transcript init = [].
Proof. split_and!; by vm_compute. Qed.

(** ** The two streaming loops *)

Lemma write_last_agree c (t : list Message) :
  alternating t →
  write_last (λ _, ai_msg c) t
  = write_last (λ m, {| role := role m; content := c |}) t.
Proof.
  intros [n Hn].
  destruct t as [|m front _] using rev_ind; [done|].
  rewrite !write_last_snoc. rewrite fmap_app in Hn. symmetry in Hn.
  apply turns_roles_last in Hn. simpl in Hn. by rewrite Hn.
Qed.

Section Simulation.

Variable decode : list byte → string.

(** Each call of the in-place variant has put its entries in the array
    before it awaits anything. *)
Lemma in_place_calls_le st :
  reachable decode StreamInPlace st → length (calls st) ≤ length (messages st).
Proof.
  intros Hr. induction Hr as [|st e Hr IH] using reachable_ind'; [done|].
  destruct e as [s| |k|k reply|k value|k|k]; simpl; try done.
  - unfold Part000.sendMessage. case_decide; [done|].
    simpl. rewrite !length_app. simpl. lia.
  - destruct (calls st !! k) as [[]|]; try done.
    simpl. by rewrite length_insert.
  - by destruct (calls st !! k) as [[]|].
  - destruct (calls st !! k) as [[]|]; try done.
    unfold Part000.resume_read, Part000.updater.
    destruct (last (messages st)); simpl; by rewrite length_insert.
  - destruct (calls st !! k) as [[]|]; try done.
    simpl. by rewrite length_insert.
  - destruct (calls st !! k) as [[]|]; try done;
      simpl; by rewrite length_insert.
Qed.

Lemma related_step e st3 st0 :
  reachable decode StreamReplace st3 →
  reachable decode StreamInPlace st0 →
  related st3 st0 →
  (e = Click → input st0 ≠ "") →
  related (step decode StreamReplace st3 e) (step decode StreamInPlace st0 e).
Proof.
  intros Hr3 Hr0 (Hin & Hc & Hrq & Ht) Hclick.
  pose proof (wf_reachable decode _ _ Hr3) as Hwf3.
  pose proof (wf_reachable decode _ _ Hr0) as Hwf0.
  assert (transcript (step decode StreamReplace st3 e)
          = transcript (step decode StreamInPlace st0 e)) as Ht'.
  { rewrite !transcript_step by done.
    destruct e as [s| |k|k reply|k value|k|k]; simpl;
      rewrite ?Hc, ?Ht, ?Hin; try done.
    - by rewrite decide_False by by apply Hclick.
    - destruct (calls st0 !! k) as [[]|]; try done.
      apply write_last_agree. by apply (paired_reachable decode StreamInPlace). }
  split_and!; [| | |done].
  - destruct e as [s| |k|k reply|k value|k|k]; simpl; rewrite ?Hc; try done.
    + unfold Part000.sendMessage. by rewrite decide_False by by apply Hclick.
    + by destruct (calls st0 !! k) as [[]|].
    + by destruct (calls st0 !! k) as [[]|].
    + destruct (calls st0 !! k) as [[]|]; try done.
      unfold Stream003.resume_read, Part000.resume_read, Part000.updater.
      destruct (Stream003.updater _ _ _).
      by destruct (last (messages st0)).
    + by destruct (calls st0 !! k) as [[]|].
    + by destruct (calls st0 !! k) as [[]|].
  - destruct e as [s| |k|k reply|k value|k|k]; simpl; rewrite ?Hc; try done.
    + unfold Part000.sendMessage. by rewrite decide_False by by apply Hclick.
    + destruct (calls st0 !! k) as [[]|]; simpl; by rewrite ?Hc.
    + by destruct (calls st0 !! k) as [[]|].
    + destruct (calls st0 !! k) as [[]|] eqn:Hk; try done.
      unfold Stream003.resume_read, Part000.resume_read, Part000.updater.
      destruct (Stream003.updater _ _ _).
      destruct (last (messages st0)) eqn:Hl; simpl; rewrite ?Hc; [done|].
      (* the array is not empty while a call reads *)
      apply last_None in Hl. apply in_place_calls_le in Hr0.
      apply lookup_lt_Some in Hk. rewrite Hl in Hr0. simpl in Hr0. lia.
    + destruct (calls st0 !! k) as [[]|]; simpl; by rewrite ?Hc.
    + destruct (calls st0 !! k) as [[]|]; simpl; by rewrite ?Hc.
  - destruct e as [s| |k|k reply|k value|k|k]; simpl; rewrite ?Hc; try done.
    + unfold Part000.sendMessage. rewrite decide_False by by apply Hclick.
      simpl. by rewrite lookup_fresh, Hrq, Hin.
    + by destruct (calls st0 !! k) as [[]|].
    + by destruct (calls st0 !! k) as [[]|].
    + destruct (calls st0 !! k) as [[]|]; try done.
      unfold Stream003.resume_read, Part000.resume_read, Part000.updater.
      destruct (Stream003.updater _ _ _).
      by destruct (last (messages st0)).
    + by destruct (calls st0 !! k) as [[]|].
    + by destruct (calls st0 !! k) as [[]|].
Qed.

Lemma related_trace es : ∀ st3 st0,
  reachable decode StreamReplace st3 →
  reachable decode StreamInPlace st0 →
  related st3 st0 →
  clicks_nonempty (input st0) es = true →
  transcript <$> trace decode StreamReplace es st3
  = transcript <$> trace decode StreamInPlace es st0
  ∧ related (run decode StreamReplace es st3) (run decode StreamInPlace es st0).
Proof.
  induction es as [|e es IH]; intros st3 st0 Hr3 Hr0 Hrel Hes; [done|].
  assert (e = Click → input st0 ≠ "") as Hclick.
  { intros ->. simpl in Hes. apply andb_prop in Hes as [H _].
    by apply bool_decide_eq_true in H. }
  pose proof (related_step e st3 st0 Hr3 Hr0 Hrel Hclick) as Hrel'.
  assert (clicks_nonempty (input (step decode StreamInPlace st0 e)) es = true)
    as Hes'.
  { destruct e as [s| |k|k reply|k value|k|k]; simpl in Hes |- *; try done.
    - apply andb_prop in Hes as [H Hes].
      apply bool_decide_eq_true in H.
      unfold Part000.sendMessage. by rewrite decide_False.
    - by destruct (calls st0 !! k) as [[]|].
    - by destruct (calls st0 !! k) as [[]|].
    - destruct (calls st0 !! k) as [[]|]; try done.
      unfold Part000.resume_read, Part000.updater.
      by destruct (last (messages st0)).
    - by destruct (calls st0 !! k) as [[]|].
    - by destruct (calls st0 !! k) as [[]|]. }
  destruct (IH _ _ (reachable_step decode _ _ e Hr3)
              (reachable_step decode _ _ e Hr0) Hrel' Hes') as [Htr Hrun].
  split; [|done].
  change (trace decode ?v (e :: es) ?st)
    with (step decode v st e :: trace decode v es (step decode v st e)).
  rewrite !fmap_cons, Htr. f_equal. by destruct Hrel' as (_ & _ & _ & ?).
Qed.

End Simulation.

(** C10: the loop that writes the content of the last message in place
    (part_000) and the loop that replaces the last array element by a new
    message (003-stream) show the same transcripts: under the same events
    (the same inputs, the same chunks, in any order across calls), every
    click finding a non-empty input, the transcripts after each event are
    equal, and so is the final one. *)
Theorem streaming_loops_agree decode es :
  clicks_nonempty "" es = true →
  transcript <$> trace decode StreamReplace es init
  = transcript <$> trace decode StreamInPlace es init
  ∧ transcript (run decode StreamReplace es init)
    = transcript (run decode StreamInPlace es init).
Proof.
  intros Hes.
  destruct (related_trace decode es init init
              (reachable_init _ _) (reachable_init _ _)) as [Htr Hrun];
    [done|done|].
  split; [done|]. by destruct Hrun as (_ & _ & _ & ?).
Qed.

Lemma streaming_loops_agree_witness :
  clicks_nonempty ""
    [Change "hi"; Click; Response 0; Read 0 (bytes "He");
     Read 0 (bytes "llo"); Done 0] = true
  ∧ transcript <$>
      trace decode_ascii StreamReplace
        [Change "hi"; Click; Response 0; Read 0 (bytes "He");
         Read 0 (bytes "llo"); Done 0] init
    = transcript <$>
        trace decode_ascii StreamInPlace
          [Change "hi"; Click; Response 0; Read 0 (bytes "He");
           Read 0 (bytes "llo"); Done 0] init.
Proof.
  split; [done|].
  destruct (streaming_loops_agree decode_ascii
              [Change "hi"; Click; Response 0; Read 0 (bytes "He");
               Read 0 (bytes "llo"); Done 0] eq_refl) as [H _].
  exact H.
Defined.

(** The in-place write goes to an object that the array of the previous
    state refers to as well: read again after the next chunk, the previous
    array shows the new content.  The replacing loop leaves it as it
    was. *)
Lemma in_place_write_reaches_previous_array :
  let es := [Change "hi"; Click; Response 0; Read 0 (bytes "He")] in
  let prev v := messages (run decode_ascii v es init) in
  let next v := step decode_ascii v (run decode_ascii v es init)
                  (Read 0 (bytes "llo")) in
  deref (heap (next StreamInPlace)) (prev StreamInPlace)
  = [user_msg "hi"; ai_msg "Hello"]
  ∧ deref (heap (next StreamReplace)) (prev StreamReplace)
    = [user_msg "hi"; ai_msg "He"].
Proof. split; by vm_compute. Qed.

(** * Further properties of the components *)

(** ** What a click does, in every variant *)

Lemma sendMessage_skip v st : sends v st = false → sendMessage v st = st.
Proof.
  destruct v; simpl; [|done|]; intros H%bool_decide_eq_false;
    [apply Vite001_send_empty|apply Part000_send_empty];
    by destruct (decide (input st = "")).
Qed.

Lemma sendMessage_sent v st :
  wf st → sends v st = true →
  transcript (sendMessage v st)
  = transcript st ++
      (if streaming v then [user_msg (input st); ai_msg ""]
       else [user_msg (input st)])
  ∧ calls (sendMessage v st) = calls st ++ [AwaitFetch]
  ∧ requests (sendMessage v st)
    = requests st ++ [{| url := endpoint v; message := input st |}]
  ∧ input (sendMessage v st) = "".
Proof.
  intros Hwf Hs. destruct v.
  - apply bool_decide_eq_true in Hs.
    by rewrite sendMessage_transcript, sendMessage_calls,
      sendMessage_requests, sendMessage_input.
  - split_and!; try done.
    + by apply Stream003_send_transcript.
    + by apply Stream003_send_requests.
  - apply bool_decide_eq_true in Hs.
    by rewrite sendMessage_transcript, sendMessage_calls,
      sendMessage_requests, sendMessage_input.
Qed.

Lemma click_or_not (e : event) : e = Click ∨ e ≠ Click.
Proof. destruct e; by (left + right). Qed.

Section Projections.

Variable decode : list byte → string.

Lemma step_requests v st e :
  requests (step decode v st e)
  = match e with Click => requests (sendMessage v st) | _ => requests st end.
Proof.
  destruct e as [s| |k|k reply|k value|k|k]; simpl; try done;
    destruct (calls st !! k) as [[]|]; try done; destruct v; try done.
  - unfold resume_read, Stream003.resume_read.
    by destruct (Stream003.updater _ _ _).
  - unfold resume_read, Part000.resume_read, Part000.updater.
    by destruct (last (messages st)).
Qed.

Lemma step_input v st e :
  input (step decode v st e)
  = match e with
    | Change s => s
    | Click => input (sendMessage v st)
    | _ => input st
    end.
Proof.
  destruct e as [s| |k|k reply|k value|k|k]; simpl; try done;
    destruct (calls st !! k) as [[]|]; try done; destruct v; try done.
  - unfold resume_read, Stream003.resume_read.
    by destruct (Stream003.updater _ _ _).
  - unfold resume_read, Part000.resume_read, Part000.updater.
    by destruct (last (messages st)).
Qed.

(** An event other than a click leaves the calls as many as they were and
    changes at most the continuation of its own call. *)
Lemma step_calls v st e :
  e ≠ Click →
  length (calls (step decode v st e)) = length (calls st)
  ∧ ∀ k, event_call e ≠ Some k →
      calls (step decode v st e) !! k = calls st !! k.
Proof.
  intros He.
  assert (∀ k c, length (<[k := c]> (calls st)) = length (calls st)
                 ∧ ∀ k', Some k ≠ Some k' →
                     <[k := c]> (calls st) !! k' = calls st !! k') as Hins.
  { intros k c. split; [apply length_insert|].
    intros k' Hk. apply list_lookup_insert_ne. congruence. }
  destruct e as [s| |k|k reply|k value|k|k]; simpl; try done;
    destruct (calls st !! k) as [[]|]; try done; destruct v; try done;
    try apply Hins.
  - unfold resume_read, Stream003.resume_read.
    destruct (Stream003.updater _ _ _). apply Hins.
  - unfold resume_read, Part000.resume_read, Part000.updater.
    destruct (last (messages st)); apply Hins.
Qed.

End Projections.

(** X1: 003-stream's [sendMessage] has no guard: whatever the input, the
    empty string included, a submit appends the user message and an empty
    "ai" message, starts a call, posts the input to /api/chat-stream and
    clears the input. *)
Theorem Stream003_submits_any_input decode st s :
  reachable decode StreamReplace st →
  transcript (submit decode StreamReplace s st)
  = transcript st ++ [user_msg s; ai_msg ""]
  ∧ calls (submit decode StreamReplace s st) = calls st ++ [AwaitFetch]
  ∧ requests (submit decode StreamReplace s st)
    = requests st ++ [{| url := "/api/chat-stream"; message := s |}]
  ∧ input (submit decode StreamReplace s st) = "".
Proof.
  intros Hr. rewrite submit_unfold.
  assert (wf (setInput s st)) as Hwf by by eapply wf_setInput, wf_reachable.
  by destruct (sendMessage_sent StreamReplace (setInput s st) Hwf eq_refl)
    as (-> & -> & -> & ->).
Qed.

Lemma Stream003_submits_any_input_witness :
  reachable decode_ascii StreamReplace init
  ∧ requests (submit decode_ascii StreamReplace "" init)
    = requests init ++ [{| url := "/api/chat-stream"; message := "" |}].
Proof.
  split; [apply reachable_init|].
  destruct (Stream003_submits_any_input decode_ascii init ""
              (reachable_init _ _)) as (_ & _ & H & _).
  exact H.
Defined.

(** ** Counting calls, requests and entries *)

Section Counting.

Variable decode : list byte → string.

Lemma step_transcript_length v st e :
  wf st → e ≠ Click →
  length (transcript st) ≤ length (transcript (step decode v st e))
  ∧ (streaming v = true →
     length (transcript (step decode v st e)) = length (transcript st)).
Proof.
  intros Hwf He. rewrite transcript_step by done.
  destruct e as [s| |k|k reply|k value|k|k]; simpl; try done.
  - destruct (calls st !! k) as [[]|]; try done. destruct v; try done.
    rewrite length_app. simpl. split; [lia|done].
  - destruct (calls st !! k) as [[]|]; try done.
    destruct v; try done; by rewrite write_last_length.
Qed.

End Counting.

(** No call is without an entry in the transcript. *)
Lemma calls_le_transcript decode v st :
  reachable decode v st → length (calls st) ≤ length (transcript st).
Proof.
  intros Hr. induction Hr as [|st e Hr IH] using reachable_ind'; [done|].
  apply wf_reachable in Hr as Hwf.
  destruct (click_or_not e) as [->|He].
  - simpl. destruct (sends v st) eqn:Hs.
    + destruct (sendMessage_sent v st Hwf Hs) as (-> & -> & _).
      rewrite !length_app. destruct (streaming v); simpl; lia.
    + by rewrite sendMessage_skip.
  - destruct (step_calls decode v st e He) as [-> _].
    destruct (step_transcript_length decode v st e Hwf He) as [Hle _]. lia.
Qed.

(** X2: in every reachable state of every variant there is exactly one
    request per call of [sendMessage] that passed the guard, every request
    went to the variant's endpoint, and no call is without an entry in the
    transcript; in the streaming variants the transcript holds exactly two
    entries per call. *)
Theorem one_request_per_call decode v st :
  reachable decode v st →
  length (requests st) = length (calls st)
  ∧ Forall (λ r, url r = endpoint v) (requests st)
  ∧ length (calls st) ≤ length (transcript st)
  ∧ (streaming v = true → length (transcript st) = 2 * length (calls st)).
Proof.
  intros Hr.
  induction Hr as [|st e Hr (IH1 & IH2 & IH3 & IH4)] using reachable_ind'.
  { split_and!; [done|apply Forall_nil_2|done|done]. }
  apply wf_reachable in Hr as Hwf.
  destruct (click_or_not e) as [->|He].
  - simpl. destruct (sends v st) eqn:Hs.
    + destruct (sendMessage_sent v st Hwf Hs) as (-> & -> & -> & _).
      rewrite !length_app. simpl. split_and!.
      * lia.
      * apply Forall_app. split; [done|]. by apply Forall_singleton.
      * destruct (streaming v); simpl; lia.
      * intros Hv. rewrite Hv. simpl. specialize (IH4 Hv). lia.
    + by rewrite sendMessage_skip.
  - destruct (step_calls decode v st e He) as [Hc _].
    destruct (step_transcript_length decode v st e Hwf He) as [Hle Heq].
    rewrite step_requests, Hc. destruct e; try done.
    all: split_and!; [done|done|lia|intros Hv; rewrite Heq by done; auto].
Qed.

Lemma one_request_per_call_witness :
  reachable decode_ascii StreamInPlace
    (run decode_ascii StreamInPlace
       [Change "hi"; Click; Response 0; Read 0 (bytes "He"); Change "yo";
        Click] init)
  ∧ length
      (transcript
         (run decode_ascii StreamInPlace
            [Change "hi"; Click; Response 0; Read 0 (bytes "He");
             Change "yo"; Click] init))
    = 2 * length
            (calls
               (run decode_ascii StreamInPlace
                  [Change "hi"; Click; Response 0; Read 0 (bytes "He");
                   Change "yo"; Click] init)).
Proof.
  assert (reachable decode_ascii StreamInPlace
            (run decode_ascii StreamInPlace
               [Change "hi"; Click; Response 0; Read 0 (bytes "He");
                Change "yo"; Click] init)) as Hr by by eexists.
  split; [done|].
  destruct (one_request_per_call decode_ascii StreamInPlace _ Hr)
    as (_ & _ & _ & H).
  exact (H eq_refl).
Defined.

(** ** Requests and user messages *)

Lemma user_texts_app t1 t2 : user_texts (t1 ++ t2) = user_texts t1 ++ user_texts t2.
Proof. unfold user_texts. by rewrite filter_app, fmap_app. Qed.

Lemma user_texts_user s : user_texts [user_msg s] = [s].
Proof. done. Qed.

Lemma user_texts_ai (m : Message) : role m = "ai" → user_texts [m] = [].
Proof.
  intros Hm. unfold user_texts. rewrite filter_cons, decide_False; [done|].
  by rewrite Hm.
Qed.

Lemma user_texts_write_last f (t : list Message) :
  alternating t → (∀ m, role m = "ai" → role (f m) = "ai") →
  user_texts (write_last f t) = user_texts t.
Proof.
  intros [n Hn] Hf.
  destruct (write_last_cases f t) as [[-> ->]|(fr & m & -> & ->)]; [done|].
  rewrite fmap_app in Hn. symmetry in Hn. apply turns_roles_last in Hn.
  rewrite !user_texts_app, !user_texts_ai; auto.
Qed.

(** X3: in every reachable state of every variant, the texts posted to the
    server, in order, are exactly the contents of the user messages of the
    transcript, in order: every user message shown was sent once, nothing
    else was sent, and no later event changes a user message. *)
Theorem requests_mirror_user_messages decode v st :
  reachable decode v st →
  message <$> requests st = user_texts (transcript st).
Proof.
  intros Hr. induction Hr as [|st e Hr IH] using reachable_ind'; [done|].
  apply wf_reachable in Hr as Hwf.
  destruct (click_or_not e) as [->|He].
  - simpl. destruct (sends v st) eqn:Hs.
    + destruct (sendMessage_sent v st Hwf Hs) as (-> & _ & -> & _).
      rewrite fmap_app, user_texts_app, IH. f_equal.
      by destruct (streaming v).
    + by rewrite sendMessage_skip.
  - rewrite step_requests, transcript_step by done.
    destruct e as [s| |k|k reply|k value|k|k]; simpl; try done.
    + destruct (calls st !! k) as [[]|]; try done. destruct v; try done.
      by rewrite user_texts_app, user_texts_ai, app_nil_r.
    + destruct (calls st !! k) as [[]|]; try done. destruct v; try done.
      * rewrite user_texts_write_last; [done| |done].
        by apply (paired_reachable decode StreamReplace).
      * rewrite user_texts_write_last; [done| |done].
        by apply (paired_reachable decode StreamInPlace).
Qed.

Lemma requests_mirror_user_messages_witness :
  reachable decode_ascii WholeResponse
    (run decode_ascii WholeResponse
       [Change "a"; Click; Change "b"; Click; Response 1; Json 1 "B"] init)
  ∧ message <$>
      requests
        (run decode_ascii WholeResponse
           [Change "a"; Click; Change "b"; Click; Response 1; Json 1 "B"] init)
    = user_texts
        (transcript
           (run decode_ascii WholeResponse
              [Change "a"; Click; Change "b"; Click; Response 1; Json 1 "B"]
              init)).
Proof.
  assert (reachable decode_ascii WholeResponse
            (run decode_ascii WholeResponse
               [Change "a"; Click; Change "b"; Click; Response 1; Json 1 "B"]
               init)) as Hr by by eexists.
  split; [done|].
  exact (requests_mirror_user_messages decode_ascii WholeResponse _ Hr).
Defined.

(** ** What is shown above the last entry *)

Section History.

Variable decode : list byte → string.

(** An event appends to the transcript, or (in a streaming variant)
    rewrites its last entry. *)
Lemma transcript_after_cases v st e :
  (∃ new, transcript_after decode v st e = transcript st ++ new)
  ∨ (streaming v = true
     ∧ ∃ f, transcript_after decode v st e = write_last f (transcript st)).
Proof.
  assert (∃ new, transcript st = transcript st ++ new) as Hsame
    by (exists []; by rewrite app_nil_r).
  destruct e as [s| |k|k reply|k value|k|k]; simpl; try by left.
  - left. destruct v; repeat case_decide; eauto.
  - left. destruct (calls st !! k) as [[]|]; destruct v; eauto.
  - destruct (calls st !! k) as [[]|]; try by left.
    destruct v; [by left|right; eauto..].
Qed.

(** An entry that is a user message, or is not the last one, is the same
    after the next event, and is then still such an entry. *)
Lemma frozen_step v st e i m :
  reachable decode v st →
  transcript st !! i = Some m →
  role m = "user" ∨ i < length (transcript st) - 1 →
  transcript (step decode v st e) !! i = Some m
  ∧ (role m = "user" ∨ i < length (transcript (step decode v st e)) - 1).
Proof.
  intros Hr Hi Hfr. rewrite transcript_step by by eapply wf_reachable.
  pose proof (lookup_lt_Some _ _ _ Hi) as Hlt.
  destruct (transcript_after_cases v st e) as [[new ->]|[Hv [f ->]]].
  - split; [by rewrite lookup_app_l|].
    destruct Hfr as [?|?]; [by left|right]. rewrite length_app. lia.
  - assert (i < length (transcript st) - 1) as Hi'.
    { destruct Hfr as [Hu|?]; [|done].
      destruct (paired_reachable decode v st Hv Hr) as [n Hn].
      destruct (decide (i = length (transcript st) - 1)) as [->|]; [|lia].
      replace (length (transcript st) - 1)
        with (pred (length (transcript st))) in Hi by lia.
      rewrite <-last_lookup in Hi.
      apply last_Some in Hi as [front Ht].
      rewrite Ht, fmap_app in Hn. symmetry in Hn.
      apply turns_roles_last in Hn. simpl in Hn. congruence. }
    rewrite write_last_length. split; [|by right].
    unfold write_last. rewrite list_lookup_alter_ne by lia. done.
Qed.

End History.

(** X4: in every variant, overlapping calls included, a user message is
    never altered, and no entry is altered once it is not the last one:
    from a reachable state on, such an entry stays at its index with its
    role and content through any later events. *)
Theorem history_is_frozen decode v st i m es :
  reachable decode v st →
  transcript st !! i = Some m →
  role m = "user" ∨ i < length (transcript st) - 1 →
  transcript (run decode v es st) !! i = Some m.
Proof.
  revert st. induction es as [|e es IH]; intros st Hr Hi Hfr; [done|].
  destruct (frozen_step decode v st e i m Hr Hi Hfr) as [Hi' Hfr'].
  simpl. apply IH; [by apply reachable_step|done|done].
Qed.

Lemma history_is_frozen_witness :
  reachable decode_ascii StreamInPlace
    (run decode_ascii StreamInPlace [Change "a"; Click; Response 0] init)
  ∧ transcript
      (run decode_ascii StreamInPlace [Change "a"; Click; Response 0] init)
    !! 0 = Some (user_msg "a")
  ∧ transcript
      (run decode_ascii StreamInPlace
         [Read 0 (bytes "x"); Change "b"; Click; Read 0 (bytes "y")]
         (run decode_ascii StreamInPlace [Change "a"; Click; Response 0] init))
    !! 0 = Some (user_msg "a").
Proof.
  assert (reachable decode_ascii StreamInPlace
            (run decode_ascii StreamInPlace [Change "a"; Click; Response 0]
               init)) as Hr by by eexists.
  split; [done|]. split; [done|].
  exact (history_is_frozen decode_ascii StreamInPlace _ 0 (user_msg "a")
           [Read 0 (bytes "x"); Change "b"; Click; Read 0 (bytes "y")]
           Hr eq_refl (or_introl eq_refl)).
Defined.

(** ** Chunks under overlapping calls *)

Section Overlap.

Variable decode : list byte → string.

(** A chunk of a reading call, in any reachable state. *)
Lemma read_writes_last v st k aiText value :
  streaming v = true → reachable decode v st →
  calls st !! k = Some (AwaitRead aiText) →
  ∃ front m,
    transcript st = front ++ [m]
    ∧ transcript (step decode v st (Read k value))
      = front ++ [ai_msg (aiText +:+ decode value)]
    ∧ calls (step decode v st (Read k value)) !! k
      = Some (AwaitRead (aiText +:+ decode value)).
Proof.
  intros Hv Hr Hk. apply wf_reachable in Hr as Hwf.
  pose proof (calls_le_transcript decode v st Hr) as Hle.
  apply lookup_lt_Some in Hk as Hlt.
  destruct (transcript st) as [|m front _] eqn:Ht using rev_ind;
    [simpl in Hle; lia|].
  assert (messages st ≠ []) as Hms.
  { intros Hnil. unfold transcript in Ht. rewrite Hnil in Ht.
    by destruct front. }
  exists front, m. split; [done|]. split.
  - rewrite transcript_step by done. simpl. rewrite Hk, Ht.
    destruct v; [done|by rewrite write_last_snoc|].
    rewrite write_last_snoc.
    destruct (paired_reachable decode StreamInPlace st eq_refl Hr) as [n Hn].
    rewrite Ht, fmap_app in Hn. symmetry in Hn.
    apply turns_roles_last in Hn. simpl in Hn. by rewrite Hn.
  - simpl. rewrite Hk. destruct v; [done| |]; simpl.
    + unfold Stream003.resume_read.
      destruct (Stream003.updater _ _ _). simpl. by eapply lookup_calls_set.
    + unfold Part000.resume_read, Part000.updater.
      destruct (last (messages st)) eqn:Hl; [simpl; by eapply lookup_calls_set|].
      by apply last_None in Hl.
Qed.

End Overlap.

(** X5: in a streaming variant nothing ties a call to the entry it
    created: a chunk of a reading call puts that call's accumulated text in
    whatever entry is last.  When a second submit is made while the first
    call is still reading, the first call's next chunk lands in the second
    turn's "ai" entry and the first turn's entry keeps what it had. *)
Theorem chunk_lands_in_last_entry decode v st :
  streaming v = true → reachable decode v st →
  (∀ k aiText value,
     calls st !! k = Some (AwaitRead aiText) →
     ∃ front m,
       transcript st = front ++ [m]
       ∧ transcript (step decode v st (Read k value))
         = front ++ [ai_msg (aiText +:+ decode value)])
  ∧ (∀ s1 s2 value, s1 ≠ "" → s2 ≠ "" →
       transcript
         (run decode v
            [Change s1; Click; Response (length (calls st));
             Change s2; Click; Read (length (calls st)) value] st)
       = transcript st ++
           [user_msg s1; ai_msg ""; user_msg s2; ai_msg (decode value)]).
Proof.
  intros Hv Hr. split.
  - intros k aiText value Hk.
    destruct (read_writes_last decode v st k aiText value Hv Hr Hk)
      as (front & m & Ht & Ht' & _).
    by exists front, m.
  - intros s1 s2 value Hs1 Hs2. apply wf_reachable in Hr as Hwf.
    set (es1 := [Change s1; Click; Response (length (calls st))]).
    pose proof (reading_start decode v s1 st Hv Hwf Hs1)
      as (Hwf2 & Hk2 & _ & Ht2).
    fold es1 in Hwf2, Hk2, Ht2.
    assert (reachable decode v (run decode v es1 st)) as Hr2
      by by apply reachable_run.
    destruct (submit_state decode v s2 _ Hwf2 Hs2) as (_ & _ & _ & Ht3).
    rewrite Hv, Ht2 in Ht3.
    assert (calls (submit decode v s2 (run decode v es1 st))
              !! length (calls st) = Some (AwaitRead "")) as Hk3.
    { rewrite submit_unfold, sendMessage_calls by done. simpl.
      rewrite lookup_app_l; [done|]. by eapply lookup_lt_Some. }
    assert (reachable decode v (submit decode v s2 (run decode v es1 st)))
      as Hr3 by by do 2 apply reachable_step.
    destruct (read_writes_last decode v _ _ _ value Hv Hr3 Hk3)
      as (front & m & Ht & Ht' & _).
    change (run decode v
              [Change s1; Click; Response (length (calls st));
               Change s2; Click; Read (length (calls st)) value] st)
      with (step decode v (submit decode v s2 (run decode v es1 st))
              (Read (length (calls st)) value)).
    rewrite Ht'. rewrite Ht3 in Ht.
    change ((transcript st ++ [user_msg s1; ai_msg ""])
            ++ [user_msg s2; ai_msg ""])
      with ((transcript st ++ [user_msg s1; ai_msg ""])
            ++ [user_msg s2] ++ [ai_msg ""]) in Ht.
    rewrite (assoc_L (++)) in Ht. apply app_inj_tail in Ht as [<- _].
    by rewrite <-!(assoc_L (++)).
Qed.

Lemma chunk_lands_in_last_entry_witness :
  streaming StreamInPlace = true ∧ reachable decode_ascii StreamInPlace init
  ∧ "a" ≠ "" ∧ "b" ≠ ""
  ∧ transcript
      (run decode_ascii StreamInPlace
         [Change "a"; Click; Response (length (calls init));
          Change "b"; Click; Read (length (calls init)) (bytes "x")] init)
    = transcript init ++
        [user_msg "a"; ai_msg ""; user_msg "b";
         ai_msg (decode_ascii (bytes "x"))].
Proof.
  split_and!; [done|apply reachable_init|done|done|].
  destruct (chunk_lands_in_last_entry decode_ascii StreamInPlace init
              eq_refl (reachable_init _ _)) as [_ H].
  exact (H "a" "b" (bytes "x") ltac:(done) ltac:(done)).
Defined.

(** ** The calls *)

Lemma sendMessage_calls_cases v st :
  calls (sendMessage v st) = calls st
  ∨ calls (sendMessage v st) = calls st ++ [AwaitFetch].
Proof.
  destruct v; simpl; unfold Vite001.sendMessage, Part000.sendMessage;
    repeat case_decide; auto.
Qed.

Section Calls.

Variable decode : list byte → string.

(** An event that is not of call [k] leaves the continuation of call [k]
    as it is. *)
Lemma calls_other_step v st e k :
  k < length (calls st) → event_call e ≠ Some k →
  calls (step decode v st e) !! k = calls st !! k
  ∧ k < length (calls (step decode v st e)).
Proof.
  intros Hk He. destruct (click_or_not e) as [->|Hc].
  - simpl. destruct (sendMessage_calls_cases v st) as [-> | ->]; [done|].
    rewrite lookup_app_l, length_app by done. split; [done|lia].
  - destruct (step_calls decode v st e Hc) as [Hlen Hother].
    rewrite Hlen. split; [by apply Hother|done].
Qed.

End Calls.

(** X6: the state of a call ([await] point and accumulated [aiText]) is
    local to it: typing, clicks and the events of other calls, in any
    number and order, leave it as it is. *)
Theorem call_state_is_local decode v st k es :
  k < length (calls st) →
  Forall (λ e, event_call e ≠ Some k) es →
  calls (run decode v es st) !! k = calls st !! k.
Proof.
  revert st. induction es as [|e es IH]; intros st Hk Hes; [done|].
  apply Forall_cons in Hes as [He Hes].
  destruct (calls_other_step decode v st e k Hk He) as [Heq Hk'].
  simpl. rewrite <-Heq. by apply IH.
Qed.

Lemma call_state_is_local_witness :
  0 < length
        (calls
           (run decode_ascii StreamReplace
              [Change "a"; Click; Response 0; Read 0 (bytes "x")] init))
  ∧ Forall (λ e, event_call e ≠ Some 0)
      [Change "b"; Click; Response 1; Read 1 (bytes "y"); Done 1]
  ∧ calls
      (run decode_ascii StreamReplace
         [Change "b"; Click; Response 1; Read 1 (bytes "y"); Done 1]
         (run decode_ascii StreamReplace
            [Change "a"; Click; Response 0; Read 0 (bytes "x")] init))
    !! 0 = Some (AwaitRead "x").
Proof.
  assert (Forall (λ e, event_call e ≠ Some 0)
            [Change "b"; Click; Response 1; Read 1 (bytes "y"); Done 1])
    as Hes by (repeat constructor; done).
  split_and!; [simpl; lia|done|].
  exact (call_state_is_local decode_ascii StreamReplace
           (run decode_ascii StreamReplace
              [Change "a"; Click; Response 0; Read 0 (bytes "x")] init)
           0 _ ltac:(simpl; lia) Hes).
Defined.

(** X7: a call that has returned or was rejected stays so whatever
    happens later, and events addressed to it change nothing at all. *)
Theorem settled_call_stays_settled decode v st k c :
  calls st !! k = Some c → settled c = true →
  (∀ es, calls (run decode v es st) !! k = Some c)
  ∧ (∀ es, Forall (λ e, event_call e = Some k) es → run decode v es st = st).
Proof.
  intros Hk Hc.
  assert (c = Returned ∨ c = Rejected) as Hc' by (destruct c; try done; auto).
  split.
  - intros es. revert st Hk. induction es as [|e es IH]; intros st Hk; [done|].
    simpl. apply IH.
    destruct (decide (event_call e = Some k)) as [He|He].
    + by rewrite (step_settled decode v k c st e).
    + destruct (calls_other_step decode v st e k) as [-> _];
        [by eapply lookup_lt_Some|done|done].
  - intros es Hes. induction Hes as [|e es He _ IH]; [done|].
    simpl. by rewrite (step_settled decode v k c st e).
Qed.

Lemma settled_call_stays_settled_witness :
  calls (run decode_ascii WholeResponse [Change "a"; Click; Throw 0] init) !! 0
  = Some Rejected
  ∧ settled Rejected = true
  ∧ calls
      (run decode_ascii WholeResponse
         [Response 0; Json 0 "late"; Change "b"; Click]
         (run decode_ascii WholeResponse [Change "a"; Click; Throw 0] init))
    !! 0 = Some Rejected.
Proof.
  split_and!; [done|done|].
  destruct (settled_call_stays_settled decode_ascii WholeResponse
              (run decode_ascii WholeResponse [Change "a"; Click; Throw 0] init)
              0 Rejected eq_refl eq_refl) as [H _].
  exact (H [Response 0; Json 0 "late"; Change "b"; Click]).
Defined.

(** ** Arrays kept from earlier states *)

Section Snapshots.

Variable decode : list byte → string.

(** 001-vite and 003-stream only ever allocate. *)
Lemma heap_step_grows v st e :
  v ≠ StreamInPlace → ∃ h', heap (step decode v st e) = heap st ++ h'.
Proof.
  intros Hv.
  assert (∃ h', heap st = heap st ++ h') as Hsame
    by (exists []; by rewrite app_nil_r).
  destruct e as [s| |k|k reply|k value|k|k]; simpl; try done.
  - destruct v; [| |done]; simpl.
    + unfold Vite001.sendMessage. case_decide; [done|]. simpl. eauto.
    + rewrite <-(assoc_L (++)). eauto.
  - by destruct (calls st !! k) as [[]|].
  - destruct (calls st !! k) as [[]|]; try done.
    destruct v; [|done..]. simpl. eauto.
  - destruct (calls st !! k) as [[]|]; try done.
    destruct v; [done| |done]. simpl.
    unfold Stream003.resume_read, Stream003.updater, alloc.
    destruct (messages st); simpl; eauto.
  - by destruct (calls st !! k) as [[]|].
  - by destruct (calls st !! k) as [[]|].
Qed.

Lemma heap_run_grows v es : ∀ st,
  v ≠ StreamInPlace → ∃ h', heap (run decode v es st) = heap st ++ h'.
Proof.
  induction es as [|e es IH]; intros st Hv.
  - exists []. by rewrite app_nil_r.
  - destruct (heap_step_grows v st e Hv) as [h1 H1].
    destruct (IH (step decode v st e) Hv) as [h2 H2].
    exists (h1 ++ h2). simpl. by rewrite H2, H1, (assoc_L (++)).
Qed.

End Snapshots.

(** X9: 001-vite and 003-stream never change a message object once it is
    made: the array of any reachable state, read again after any later
    events, shows exactly the transcript it showed. *)
Theorem snapshots_are_immutable decode v st es :
  v ≠ StreamInPlace → reachable decode v st →
  deref (heap (run decode v es st)) (messages st) = transcript st.
Proof.
  intros Hv Hr. destruct (heap_run_grows decode v es st Hv) as [h' ->].
  apply deref_grow. by apply (wf_reachable decode v).
Qed.

Lemma snapshots_are_immutable_witness :
  StreamReplace ≠ StreamInPlace
  ∧ reachable decode_ascii StreamReplace
      (run decode_ascii StreamReplace
         [Change "a"; Click; Response 0; Read 0 (bytes "x")] init)
  ∧ deref
      (heap
         (run decode_ascii StreamReplace [Read 0 (bytes "y"); Done 0]
            (run decode_ascii StreamReplace
               [Change "a"; Click; Response 0; Read 0 (bytes "x")] init)))
      (messages
         (run decode_ascii StreamReplace
            [Change "a"; Click; Response 0; Read 0 (bytes "x")] init))
    = transcript
        (run decode_ascii StreamReplace
           [Change "a"; Click; Response 0; Read 0 (bytes "x")] init).
Proof.
  assert (reachable decode_ascii StreamReplace
            (run decode_ascii StreamReplace
               [Change "a"; Click; Response 0; Read 0 (bytes "x")] init))
    as Hr by by eexists.
  split_and!; [done|done|].
  exact (snapshots_are_immutable decode_ascii StreamReplace _
           [Read 0 (bytes "y"); Done 0] ltac:(done) Hr).
Defined.

(** X10: part_000 writes into the message object that the previous array
    holds too: after a chunk of a reading call the array is made of the
    same references, and the array of the state before, read again, shows
    the new transcript, whose last content is the call's accumulated
    text. *)
Theorem in_place_write_is_shared decode st k aiText value :
  reachable decode StreamInPlace st →
  calls st !! k = Some (AwaitRead aiText) →
  messages (step decode StreamInPlace st (Read k value)) = messages st
  ∧ deref (heap (step decode StreamInPlace st (Read k value))) (messages st)
    = transcript (step decode StreamInPlace st (Read k value))
  ∧ last_content (step decode StreamInPlace st (Read k value))
    = Some (aiText +:+ decode value).
Proof.
  intros Hr Hk.
  assert (messages (step decode StreamInPlace st (Read k value)) = messages st)
    as Hms.
  { simpl. rewrite Hk. unfold Part000.resume_read, Part000.updater.
    by destruct (last (messages st)). }
  split; [done|]. split.
  - unfold transcript. by rewrite Hms.
  - destruct (read_writes_last decode StreamInPlace st k aiText value
                eq_refl Hr Hk) as (front & m & _ & Ht & _).
    unfold last_content. by rewrite Ht, last_snoc.
Qed.

Lemma in_place_write_is_shared_witness :
  reachable decode_ascii StreamInPlace
    (run decode_ascii StreamInPlace
       [Change "a"; Click; Response 0; Read 0 (bytes "x")] init)
  ∧ calls
      (run decode_ascii StreamInPlace
         [Change "a"; Click; Response 0; Read 0 (bytes "x")] init) !! 0
    = Some (AwaitRead "x")
  ∧ last_content
      (step decode_ascii StreamInPlace
         (run decode_ascii StreamInPlace
            [Change "a"; Click; Response 0; Read 0 (bytes "x")] init)
         (Read 0 (bytes "y")))
    = Some ("x" +:+ decode_ascii (bytes "y")).
Proof.
  assert (reachable decode_ascii StreamInPlace
            (run decode_ascii StreamInPlace
               [Change "a"; Click; Response 0; Read 0 (bytes "x")] init))
    as Hr by by eexists.
  split_and!; [done|done|].
  destruct (in_place_write_is_shared decode_ascii _ 0 "x" (bytes "y")
              Hr eq_refl) as (_ & _ & H).
  exact H.
Defined.

(** ** Bubbles *)

Lemma turns_roles_lookup n : ∀ i r,
  turns_roles n !! i = Some r → r = if Nat.even i then "user" else "ai".
Proof.
  induction n as [|n IH]; intros i r Hi; [done|].
  destruct i as [|[|i]]; simpl in Hi.
  - by injection Hi as <-.
  - by injection Hi as <-.
  - change (Nat.even (S (S i))) with (Nat.even i). by apply IH.
Qed.

(** X12: applied to the entries of a reachable transcript of part_000,
    [ChatBubble] puts the entries at even indices (the user's) to the
    right, white on indigo, and those at odd indices (the "ai" ones) to
    the left, dark on grey, and hands the content as it is to the
    markdown renderer. *)
Theorem bubbles_alternate decode st i m :
  reachable decode StreamInPlace st →
  transcript st !! i = Some m →
  bubble_of m
  = {| row := {| display := "flex";
                 justifyContent :=
                   if Nat.even i then "flex-end" else "flex-start";
                 marginBottom := 12 |};
       box := {| maxWidth := "70%";
                 padding := "10px 14px";
                 borderRadius := 12;
                 background := if Nat.even i then "#4f46e5" else "#f3f4f6";
                 color := if Nat.even i then "#fff" else "#111";
                 whiteSpace := "pre-wrap" |};
       children := content m |}.
Proof.
  intros Hr Hi.
  destruct (paired_reachable decode StreamInPlace st eq_refl Hr) as [n Hn].
  assert (role m = if Nat.even i then "user" else "ai") as Hm.
  { apply (turns_roles_lookup n). by rewrite <-Hn, list_lookup_fmap, Hi. }
  unfold bubble_of, ChatBubble. rewrite Hm. by destruct (Nat.even i).
Qed.

Lemma bubbles_alternate_witness :
  reachable decode_ascii StreamInPlace
    (run decode_ascii StreamInPlace
       [Change "a"; Click; Response 0; Read 0 (bytes "x")] init)
  ∧ transcript
      (run decode_ascii StreamInPlace
         [Change "a"; Click; Response 0; Read 0 (bytes "x")] init) !! 1
    = Some (ai_msg "x")
  ∧ justifyContent (row (bubble_of (ai_msg "x"))) = "flex-start".
Proof.
  assert (reachable decode_ascii StreamInPlace
            (run decode_ascii StreamInPlace
               [Change "a"; Click; Response 0; Read 0 (bytes "x")] init))
    as Hr by by eexists.
  split_and!; [done|done|].
  by rewrite (bubbles_alternate decode_ascii _ 1 (ai_msg "x") Hr eq_refl).
Defined.

(** ** The accumulator of a call among other calls *)

Lemma chunks_of_read k value es :
  chunks_of k (Read k value :: es) = value :: chunks_of k es.
Proof. unfold chunks_of. simpl. by rewrite decide_True. Qed.

Lemma chunks_of_other k e es :
  event_call e ≠ Some k → chunks_of k (e :: es) = chunks_of k es.
Proof.
  intros He. unfold chunks_of.
  destruct e as [s| |k'|k' reply|k' value|k'|k']; try done.
  simpl. rewrite decide_False; [done|]. simpl in He. congruence.
Qed.

(** X13: in a streaming variant the text a call accumulates is the
    concatenation of its own decoded chunks, in order, whatever else
    happens in between (typing, clicks, events of other calls): other
    calls never add to it or take from it. *)
Theorem accumulator_holds_own_chunks decode v es : ∀ st k aiText,
  streaming v = true → reachable decode v st →
  calls st !! k = Some (AwaitRead aiText) →
  Forall (λ e, chunk_or_other k e = true) es →
  calls (run decode v es st) !! k
  = Some (AwaitRead (aiText +:+ concat_text (decode <$> chunks_of k es))).
Proof.
  induction es as [|e es IH]; intros st k aiText Hv Hr Hk Hes.
  - simpl. unfold concat_text. simpl. by rewrite append_nil_r.
  - apply Forall_cons in Hes as [He Hes].
    assert (reachable decode v (step decode v st e)) as Hr'
      by by apply reachable_step.
    destruct (decide (event_call e = Some k)) as [Hek|Hek].
    + destruct e as [s| |k'|k' reply|k' value|k'|k']; simpl in Hek, He;
        try done; injection Hek as ->;
        try (by apply bool_decide_eq_true in He).
      destruct (read_writes_last decode v st k aiText value Hv Hr Hk)
        as (_ & _ & _ & _ & Hk').
      change (run decode v (Read k value :: es) st)
        with (run decode v es (step decode v st (Read k value))).
      rewrite (IH _ k _ Hv Hr' Hk' Hes).
      by rewrite chunks_of_read, fmap_cons, concat_text_cons, append_assoc.
    + destruct (calls_other_step decode v st e k) as [Hk' _];
        [by eapply lookup_lt_Some|done|].
      rewrite <-Hk' in Hk.
      change (run decode v (e :: es) st)
        with (run decode v es (step decode v st e)).
      rewrite (IH _ k _ Hv Hr' Hk Hes).
      by rewrite chunks_of_other.
Qed.

Lemma accumulator_holds_own_chunks_witness :
  streaming StreamReplace = true
  ∧ reachable decode_ascii StreamReplace
      (run decode_ascii StreamReplace [Change "a"; Click; Response 0] init)
  ∧ calls
      (run decode_ascii StreamReplace [Change "a"; Click; Response 0] init)
    !! 0 = Some (AwaitRead "")
  ∧ Forall (λ e, chunk_or_other 0 e = true)
      [Read 0 (bytes "He"); Change "b"; Click; Response 1;
       Read 1 (bytes "zz"); Read 0 (bytes "llo"); Done 1]
  ∧ calls
      (run decode_ascii StreamReplace
         [Read 0 (bytes "He"); Change "b"; Click; Response 1;
          Read 1 (bytes "zz"); Read 0 (bytes "llo"); Done 1]
         (run decode_ascii StreamReplace [Change "a"; Click; Response 0] init))
    !! 0
    = Some
        (AwaitRead
           ("" +:+ concat_text
                     (decode_ascii <$>
                        chunks_of 0
                          [Read 0 (bytes "He"); Change "b"; Click; Response 1;
                           Read 1 (bytes "zz"); Read 0 (bytes "llo");
                           Done 1]))).
Proof.
  assert (reachable decode_ascii StreamReplace
            (run decode_ascii StreamReplace [Change "a"; Click; Response 0]
               init)) as Hr by by eexists.
  assert (Forall (λ e, chunk_or_other 0 e = true)
            [Read 0 (bytes "He"); Change "b"; Click; Response 1;
             Read 1 (bytes "zz"); Read 0 (bytes "llo"); Done 1]) as Hes
    by (repeat constructor).
  split_and!; [done|done|done|done|].
  exact (accumulator_holds_own_chunks decode_ascii StreamReplace _ _ 0 ""
           eq_refl Hr eq_refl Hes).
Defined.

(** * The update queue *)

(** ** Computing updates *)

Lemma push_all_spec new : ∀ (h : Heap) (ms : list loc),
  Forall (λ l, l < length h) ms → NoDup ms →
  deref (push_all new h ms).1 (push_all new h ms).2 = deref h ms ++ new
  ∧ Forall (λ l, l < length (push_all new h ms).1) (push_all new h ms).2
  ∧ NoDup (push_all new h ms).2.
Proof.
  induction new as [|m new IH]; intros h ms Hv Hn.
  - simpl. by rewrite app_nil_r.
  - destruct (wf_push h ms m Hv Hn) as [Hv' Hn'].
    destruct (IH (h ++ [m]) (ms ++ [length h]) Hv' Hn') as (Hd & ? & ?).
    change (push_all (m :: new) h ms)
      with (push_all new (h ++ [m]) (ms ++ [length h])).
    split_and!; [|done..].
    by rewrite Hd, deref_push, <-(assoc_L (++)).
Qed.

Lemma Part000_updater_spec c (h : Heap) (ms : list loc) front m :
  Forall (λ l, l < length h) ms → NoDup ms →
  deref h ms = front ++ [m] →
  ∃ h', Part000.updater c h ms = Some (h', ms)
        ∧ deref h' ms = front ++ [{| role := role m; content := c |}]
        ∧ length h' = length h.
Proof.
  intros Hv Hn Ht.
  apply deref_snoc_inv in Ht as (ms' & l & -> & <- & <-).
  unfold Part000.updater. rewrite last_snoc.
  eexists. split; [done|].
  apply Forall_app in Hv as [_ Hl]. rewrite Forall_singleton in Hl.
  apply NoDup_app in Hn as (_ & Hn & _).
  split; [|by rewrite length_alter].
  apply (deref_alter_last (λ m, {| role := role m; content := c |}));
    [done|].
  intros Hin. apply (Hn l Hin). by apply list_elem_of_singleton.
Qed.

Lemma Stream003_updater_spec c (h : Heap) (ms : list loc) front m :
  Forall (λ l, l < length h) ms → NoDup ms →
  deref h ms = front ++ [m] →
  deref (Stream003.updater c h ms).1 (Stream003.updater c h ms).2
  = front ++ [ai_msg c]
  ∧ Forall (λ l, l < length (Stream003.updater c h ms).1)
      (Stream003.updater c h ms).2
  ∧ NoDup (Stream003.updater c h ms).2.
Proof.
  intros Hv Hn Ht.
  apply deref_snoc_inv in Ht as (ms' & l & -> & <- & _).
  rewrite Stream003_updater_snoc. simpl.
  apply Forall_app in Hv as [Hv _]. apply NoDup_app in Hn as (Hn & _ & _).
  split; [by apply deref_push|by apply wf_push].
Qed.

Section Updates.

Variable v : variant.
Variable texts : list string.

Lemma compute_update_calls u st :
  calls (compute_update v texts u st) = calls st
  ∧ requests (compute_update v texts u st) = requests st.
Proof.
  destruct u as [s|new|k]; simpl; [done| |].
  - by destruct (push_all new (heap st) (messages st)).
  - destruct v; [done| |].
    + by destruct (Stream003.updater _ _ _).
    + by destruct (Part000.updater _ _ _) as [[]|].
Qed.

Lemma compute_update_input u st :
  input (compute_update v texts u st)
  = match u with SetInput s => s | _ => input st end.
Proof.
  destruct u as [s|new|k]; simpl; [done| |].
  - by destruct (push_all new (heap st) (messages st)).
  - destruct v; [done| |].
    + by destruct (Stream003.updater _ _ _).
    + by destruct (Part000.updater _ _ _) as [[]|].
Qed.

Lemma compute_append new st :
  wf st →
  wf (compute_update v texts (Append new) st)
  ∧ transcript (compute_update v texts (Append new) st) = transcript st ++ new.
Proof.
  intros [Hv Hn]. simpl.
  destruct (push_all_spec new (heap st) (messages st) Hv Hn) as (Hd & ? & ?).
  by destruct (push_all new (heap st) (messages st)).
Qed.

(** A chunk updater puts the text of its call, as it is now, in the last
    entry. *)
Lemma compute_write_last k st front m :
  streaming v = true → wf st →
  transcript st = front ++ [m] → role m = "ai" →
  wf (compute_update v texts (WriteLast k) st)
  ∧ transcript (compute_update v texts (WriteLast k) st)
    = front ++ [ai_msg (texts !!! k)].
Proof.
  intros Hs [Hv Hn] Ht Hm. simpl. destruct v; [done| |].
  - destruct (Stream003_updater_spec (texts !!! k) _ _ _ _ Hv Hn Ht)
      as (Hd & ? & ?).
    by destruct (Stream003.updater _ _ _).
  - destruct (Part000_updater_spec (texts !!! k) _ _ _ _ Hv Hn Ht)
      as (h' & -> & Hd & Hlen).
    split; [split; [simpl; by rewrite Hlen|done]|].
    unfold transcript. simpl. by rewrite Hd, Hm.
Qed.

End Updates.

(** ** Chunks between renders *)

Section Batches.

Variable decode : list byte → string.
Variable v : variant.
Variable eager : bool.
Hypothesis Hstream : streaming v = true.

Lemma occurs_app os1 os2 sc :
  occurs decode v eager (os1 ++ os2) sc
  = occurs decode v eager os2 (occurs decode v eager os1 sc).
Proof. unfold occurs. by rewrite fold_left_app. Qed.

(** The queued chunk updaters of one call, computed at a render. *)
Lemma fold_write_last texts k (T : list Message) u n : ∀ st c,
  wf st → transcript st = T ++ [u; ai_msg c] →
  wf (foldl (λ st u, compute_update v texts u st) st
        (replicate n (WriteLast k)))
  ∧ transcript (foldl (λ st u, compute_update v texts u st) st
                  (replicate n (WriteLast k)))
    = T ++ [u; ai_msg (match n with 0 => c | S _ => texts !!! k end)]
  ∧ calls (foldl (λ st u, compute_update v texts u st) st
             (replicate n (WriteLast k))) = calls st
  ∧ input (foldl (λ st u, compute_update v texts u st) st
             (replicate n (WriteLast k))) = input st.
Proof.
  induction n as [|n IH]; intros st c Hwf Ht; [done|].
  rewrite transcript_turn_snoc in Ht.
  destruct (compute_write_last v texts k st _ _ Hstream Hwf Ht eq_refl)
    as [Hwf1 Ht1].
  rewrite <-transcript_turn_snoc in Ht1.
  destruct (IH _ _ Hwf1 Ht1) as (? & Ht2 & Hc2 & Hi2).
  cbn [replicate foldl]. split_and!; [done| | |].
  - rewrite Ht2. by destruct n.
  - rewrite Hc2. apply compute_update_calls.
  - rewrite Hi2. by rewrite compute_update_input.
Qed.

Lemma batch_read k aiText T s value sc :
  batch_reading k aiText T s sc →
  batch_reading k (aiText +:+ decode value) T s
    (occur decode v eager sc (Ev (Read k value))).
Proof.
  intros (Hwf & Hk & Htx & n & c & Hp & Ht & Hn0 & Hsch).
  assert (occur decode v eager sc (Ev (Read k value))
          = read_chunk decode v eager k value sc) as ->.
  { simpl. rewrite Hk. by destruct v. }
  unfold read_chunk. rewrite (list_lookup_total_correct _ _ _ Htx).
  assert (k < length (aiTexts sc)) as Hlt by by eapply lookup_lt_Some.
  assert (<[k:=aiText +:+ decode value]> (aiTexts sc) !! k
          = Some (aiText +:+ decode value)) as Htx'
    by by apply list_lookup_insert_eq.
  assert (<[k:=AwaitRead (aiText +:+ decode value)]> (calls (app sc)) !! k
          = Some (AwaitRead (aiText +:+ decode value))) as Hk'
    by by eapply lookup_calls_set.
  unfold request_update, with_app.
  cbn [app aiTexts pending scheduled shown shown_input].
  destruct (eager && negb (scheduled sc)) eqn:He.
  - assert (n = 0) as ->.
    { apply Hsch. apply andb_prop in He as [_ He].
      by destruct (scheduled sc). }
    specialize (Hn0 eq_refl) as ->. simpl in Hp.
    rewrite transcript_turn_snoc in Ht.
    destruct (compute_write_last v
                (<[k:=aiText +:+ decode value]> (aiTexts sc)) k
                (suspend k (AwaitRead (aiText +:+ decode value)) (app sc))
                _ _ Hstream Hwf Ht eq_refl) as [Hwf1 Ht1].
    rewrite (list_lookup_total_correct _ _ _ Htx'),
      <-transcript_turn_snoc in Ht1.
    split_and!; cbn [app aiTexts pending scheduled shown shown_input].
    + done.
    + by destruct (compute_update_calls v
                     (<[k:=aiText +:+ decode value]> (aiTexts sc))
                     (WriteLast k)
                     (suspend k (AwaitRead (aiText +:+ decode value))
                        (app sc))) as [-> _].
    + done.
    + exists 0, (aiText +:+ decode value). by rewrite Hp.
  - split_and!; cbn [app aiTexts pending scheduled shown shown_input];
      [done..|].
    exists (S n), c. rewrite Hp, replicate_S_end. by split_and!.
Qed.

Lemma batch_reads k T s g : ∀ aiText sc,
  batch_reading k aiText T s sc →
  batch_reading k (aiText +:+ concat_text (decode <$> g)) T s
    (occurs decode v eager ((λ value, Ev (Read k value)) <$> g) sc).
Proof.
  induction g as [|value g IH]; intros aiText sc Hb.
  - simpl. unfold concat_text. simpl. by rewrite append_nil_r.
  - rewrite !fmap_cons, concat_text_cons, <-append_assoc.
    apply IH. by apply batch_read.
Qed.

(** A render shows what the call has accumulated. *)
Lemma batch_render k aiText T s sc :
  batch_reading k aiText T s sc →
  batch_reading k aiText T s (render v sc)
  ∧ shown (render v sc) = T ++ [user_msg s; ai_msg aiText].
Proof.
  intros (Hwf & Hk & Htx & n & c & Hp & Ht & Hn0 & Hsch).
  destruct (fold_write_last (aiTexts sc) k T (user_msg s) n _ _ Hwf Ht)
    as (Hwf' & Ht' & Hc' & _).
  rewrite (list_lookup_total_correct _ _ _ Htx) in Ht'.
  assert (match n with 0 => c | S _ => aiText end = aiText) as Hc
    by (destruct n; auto).
  rewrite Hc in Ht'. unfold render. rewrite Hp. simpl.
  split; [|done]. split_and!; simpl; [done|by rewrite Hc'|done|].
  by exists 0, aiText.
Qed.

Lemma renders_reads k g os sc :
  renders decode v eager (((λ value, Ev (Read k value)) <$> g) ++ os) sc
  = renders decode v eager os
      (occurs decode v eager ((λ value, Ev (Read k value)) <$> g) sc).
Proof.
  revert sc. induction g as [|value g IH]; intros sc; [done|].
  rewrite fmap_cons. simpl. by rewrite IH.
Qed.

(** What the renders show, batch after batch. *)
Lemma batch_renders k T s groups : ∀ aiText sc,
  batch_reading k aiText T s sc →
  renders decode v eager (batches k groups) sc
  = (λ c, T ++ [user_msg s; ai_msg c])
      <$> accumulate aiText ((λ g, concat_text (decode <$> g)) <$> groups)
  ∧ batch_reading k
      (aiText +:+ concat_text (decode <$> concat groups)) T s
      (occurs decode v eager (batches k groups) sc).
Proof.
  induction groups as [|g groups IH]; intros aiText sc Hb.
  - split; [done|]. simpl. unfold concat_text. simpl.
    by rewrite append_nil_r.
  - pose proof (batch_reads k T s g _ _ Hb) as Hb1.
    destruct (batch_render k _ T s _ Hb1) as [Hb2 Hsh].
    destruct (IH _ _ Hb2) as [Hr Hb3].
    change (batches k (g :: groups))
      with (((λ value, Ev (Read k value)) <$> g)
            ++ Render :: batches k groups).
    split.
    + rewrite renders_reads.
      change (renders decode v eager (Render :: batches k groups) ?x)
        with (shown (render v x)
              :: renders decode v eager (batches k groups) (render v x)).
      by rewrite Hsh, Hr.
    + rewrite occurs_app.
      change (occurs decode v eager (Render :: batches k groups) ?x)
        with (occurs decode v eager (batches k groups) (render v x)).
      simpl concat. rewrite fmap_app, concat_text_app, <-append_assoc. done.
Qed.

(** The state in which a submit and the response to it have been
    rendered. *)
Lemma batch_start s st :
  reachable decode v st → s ≠ "" →
  batch_reading (length (calls st)) "" (transcript st) s
    (quiet (run decode v [Change s; Click; Response (length (calls st))] st)).
Proof.
  intros Hr Hs. apply wf_reachable in Hr as Hwf.
  destruct (reading_start decode v s st Hstream Hwf Hs) as (Hwf1 & Hk & _ & Ht).
  unfold quiet.
  split_and!; cbn [app aiTexts pending scheduled shown shown_input];
    [done|done| |].
  - by rewrite list_lookup_fmap, Hk.
  - by exists 0, "".
Qed.

End Batches.

(** ** A render after every event *)

Section Requests.
Variable decode : list byte → string.
Variable v : variant.
Variable eager : bool.

Lemma shows_quiet st : shows (quiet st) st.
Proof.
  unfold shows, quiet. simpl. split_and!; try done.
  - by rewrite length_fmap.
  - intros k c Hk _. by rewrite list_lookup_fmap, Hk.
Qed.

Lemma setInput_same st : setInput (input st) st = st.
Proof. by destruct st. Qed.

(** From a state with nothing outstanding, a requested update is what
    the next render computes, whether it was computed at once or
    queued. *)
Lemma render_request u sc :
  pending sc = [] → scheduled sc = false →
  app (render v (request_update v eager u sc))
  = compute_update v (aiTexts sc) u (app sc)
  ∧ aiTexts (render v (request_update v eager u sc)) = aiTexts sc.
Proof.
  intros Hp Hs. unfold request_update. rewrite Hs.
  destruct eager; simpl.
  - destruct u as [s|new|k]; [case_decide as Heq|..]; unfold render;
      rewrite ?Hp; simpl; try done.
    subst s. by rewrite setInput_same.
  - unfold render. simpl. by rewrite Hp.
Qed.
End Requests.

Lemma render_idle v sc : pending sc = [] → app (render v sc) = app sc.
Proof. intros Hp. unfold render. by rewrite Hp. Qed.

Section RenderAfterEvent.
Variable decode : list byte → string.
Variable v : variant.
Variable eager : bool.

Lemma app_render_occur sc st e :
  reachable decode v st → shows sc st →
  app (render v (occur decode v eager sc (Ev e))) = step decode v st e.
Proof.
  intros Hr (Happ & Hp & Hs & Hin & _ & Hlen & Htx).
  destruct e as [s| |k|k reply|k value|k|k].
  - cbn [occur].
    destruct (render_request v eager (SetInput s) sc Hp Hs) as [-> _].
    simpl. by rewrite Happ.
  - cbn [occur step]. unfold click. rewrite Hin.
    destruct (guarded v && bool_decide (input st = "")) eqn:Hg.
    + rewrite render_idle, Happ by done.
      apply andb_prop in Hg as [Hv Hg]. apply bool_decide_eq_true in Hg.
      destruct v; [|done|]; simpl;
        [by rewrite Vite001_send_empty|by rewrite Part000_send_empty].
    + assert (v = StreamReplace ∨ input st ≠ "") as Hsend.
      { apply andb_false_iff in Hg as [Hg|Hg]; [left; by destruct v|right].
        by apply bool_decide_eq_false in Hg. }
      unfold request_update, with_app, render. rewrite Hs. simpl.
      destruct eager; simpl; rewrite ?Hp, Happ; simpl;
        destruct v; simpl;
        unfold Vite001.sendMessage, Part000.sendMessage,
          Stream003.sendMessage, setInput;
        try (destruct Hsend as [?|Hne]; [done|]);
        rewrite ?decide_False by done; simpl;
        rewrite ?lookup_fresh; simpl;
        by rewrite <-?(assoc_L (++)).
  - cbn [occur step]. rewrite Happ.
    destruct (calls st !! k) as [[]|]; rewrite render_idle; simpl; congruence.
  - cbn [occur step]. rewrite Happ.
    destruct (calls st !! k) as [[]|]; destruct v;
      try (rewrite render_idle; simpl; congruence).
    unfold request_update, with_app, render. rewrite Hs. simpl.
    destruct eager; simpl; rewrite ?Hp, Happ; done.
  - cbn [occur step]. rewrite Happ.
    destruct (calls st !! k) as [[| |aiText| |]|] eqn:Hk; destruct v;
      try (rewrite render_idle; simpl; congruence).
    + assert (aiTexts sc !! k = Some aiText) as Hk'
        by by apply (Htx k (AwaitRead aiText)).
      unfold read_chunk. rewrite (list_lookup_total_correct _ _ _ Hk').
      match goal with
      | |- app (render _ (request_update _ _ _ ?sc1)) = _ =>
          destruct (render_request StreamReplace eager (WriteLast k) sc1)
            as [-> _]; [done..|]
      end.
      cbn [app aiTexts compute_update].
      rewrite list_lookup_total_insert_eq by by eapply lookup_lt_Some.
      rewrite Happ. unfold resume_read, Stream003.resume_read. simpl.
      by destruct (Stream003.updater _ _ _).
    + assert (aiTexts sc !! k = Some aiText) as Hk'
        by by apply (Htx k (AwaitRead aiText)).
      unfold read_chunk. rewrite (list_lookup_total_correct _ _ _ Hk').
      match goal with
      | |- app (render _ (request_update _ _ _ ?sc1)) = _ =>
          destruct (render_request StreamInPlace eager (WriteLast k) sc1)
            as [-> _]; [done..|]
      end.
      cbn [app aiTexts compute_update].
      rewrite list_lookup_total_insert_eq by by eapply lookup_lt_Some.
      rewrite Happ. unfold resume_read, Part000.resume_read, Part000.updater.
      simpl. destruct (last (messages st)) eqn:Hl; [done|].
      apply last_None in Hl. apply calls_le_transcript in Hr.
      apply lookup_lt_Some in Hk. unfold transcript in Hr.
      rewrite deref_length, Hl in Hr. simpl in Hr. lia.
  - cbn [occur step]. rewrite Happ.
    destruct (calls st !! k) as [[]|]; rewrite render_idle; simpl; congruence.
  - cbn [occur step]. rewrite Happ.
    destruct (calls st !! k) as [[]|]; rewrite render_idle; simpl; congruence.
Qed.
End RenderAfterEvent.

Lemma request_update_texts v eager u sc :
  aiTexts (request_update v eager u sc) = aiTexts sc.
Proof.
  unfold request_update. destruct (eager && negb (scheduled sc)); [|done].
  destruct u; try done. by case_decide.
Qed.

Section Texts.
Variable decode : list byte → string.
Variable v : variant.
Variable eager : bool.

Lemma texts_occur sc st e :
  shows sc st →
  length (aiTexts (occur decode v eager sc (Ev e)))
  = length (calls (step decode v st e))
  ∧ ∀ k c,
      calls (step decode v st e) !! k = Some c → settled c = false →
      aiTexts (occur decode v eager sc (Ev e)) !! k = Some (call_text c).
Proof.
  intros (Happ & Hp & Hs & Hin & _ & Hlen & Htx).
  assert (∀ k c0 c',
            calls st !! k = Some c0 → settled c0 = false →
            call_text c' = call_text c0 ∨ settled c' = true →
            length (aiTexts sc) = length (<[k:=c']> (calls st))
            ∧ ∀ k' c, <[k:=c']> (calls st) !! k' = Some c →
                settled c = false → aiTexts sc !! k' = Some (call_text c))
    as Hset.
  { intros k c0 c' Hk Hc0 Hc'. split; [by rewrite length_insert|].
    intros k' c Hk' Hc. destruct (decide (k = k')) as [<-|Hne].
    - rewrite list_lookup_insert_eq in Hk' by by eapply lookup_lt_Some.
      injection Hk' as <-. destruct Hc' as [->|?]; [by apply Htx|congruence].
    - rewrite list_lookup_insert_ne in Hk' by done. by apply Htx. }
  destruct e as [s| |k|k reply|k value|k|k]; cbn [occur step].
  - by rewrite request_update_texts.
  - unfold click. rewrite Hin.
    destruct (guarded v && bool_decide (input st = "")) eqn:Hg.
    + apply andb_prop in Hg as [Hv Hg]. apply bool_decide_eq_true in Hg.
      rewrite sendMessage_skip; [done|].
      destruct v; [|done|]; simpl; by apply bool_decide_eq_false; intros [].
    + assert (calls (sendMessage v st) = calls st ++ [AwaitFetch]) as ->.
      { apply andb_false_iff in Hg as [Hg|Hg]; [by destruct v|].
        apply bool_decide_eq_false in Hg. by apply sendMessage_calls. }
      cbn [aiTexts]. rewrite !request_update_texts, !length_app, Hlen.
      split; [done|]. intros k c Hk Hc.
      apply lookup_app_Some in Hk as [Hk|[Hge Hk]].
      * rewrite lookup_app_l by (rewrite Hlen; by eapply lookup_lt_Some).
        by apply Htx.
      * destruct (k - length (calls st)) as [|n] eqn:Hn; [|by destruct n].
        injection Hk as <-.
        rewrite lookup_app_r by lia. rewrite Hlen, Hn. done.
  - rewrite Happ. destruct (calls st !! k) as [c0|] eqn:Hk; [|done].
    destruct c0; try done. apply (Hset k AwaitFetch); [done..|].
    left. by destruct v.
  - rewrite Happ. destruct (calls st !! k) as [c0|] eqn:Hk; [|by destruct v].
    destruct c0; try by destruct v. destruct v; try done.
    cbn [aiTexts with_app]. rewrite request_update_texts.
    apply (Hset k AwaitJson); auto.
  - rewrite Happ. destruct (calls st !! k) as [c0|] eqn:Hk; [|by destruct v].
    destruct c0 as [| |aiText| |]; try by destruct v.
    assert (aiTexts sc !! k = Some aiText) as Hk'
      by by apply (Htx k (AwaitRead aiText)).
    assert (∀ c',
              c' = AwaitRead (aiText +:+ decode value) ∨ settled c' = true →
              length (<[k:=aiText +:+ decode value]> (aiTexts sc))
              = length (<[k:=c']> (calls st))
              ∧ ∀ k' c, <[k:=c']> (calls st) !! k' = Some c →
                  settled c = false →
                  <[k:=aiText +:+ decode value]> (aiTexts sc) !! k'
                  = Some (call_text c)) as Hread.
    { intros c' Hc'. split; [by rewrite !length_insert|].
      intros k' c Hkc Hc. destruct (decide (k = k')) as [<-|Hne].
      - rewrite list_lookup_insert_eq in Hkc by by eapply lookup_lt_Some.
        injection Hkc as <-.
        rewrite list_lookup_insert_eq by by eapply lookup_lt_Some.
        destruct Hc' as [->|?]; [done|congruence].
      - rewrite list_lookup_insert_ne in Hkc by done.
        rewrite list_lookup_insert_ne by done. by apply Htx. }
    destruct v; [done| |]; unfold read_chunk;
      rewrite request_update_texts; cbn [aiTexts];
      rewrite (list_lookup_total_correct _ _ _ Hk').
    + unfold resume_read, Stream003.resume_read.
      destruct (Stream003.updater _ _ _). apply Hread. by left.
    + unfold resume_read, Part000.resume_read, Part000.updater.
      destruct (last (messages st)); apply Hread; auto.
  - rewrite Happ. destruct (calls st !! k) as [c0|] eqn:Hk; [|done].
    destruct c0; try done. apply (Hset k (AwaitRead aiText)); auto.
  - rewrite Happ. destruct (calls st !! k) as [c0|] eqn:Hk; [|done].
    destruct c0; try done;
      [apply (Hset k AwaitFetch)|apply (Hset k AwaitJson)
      |apply (Hset k (AwaitRead aiText))]; auto.
Qed.
End Texts.

Section Simulation2.

Variable decode : list byte → string.
Variable v : variant.
Variable eager : bool.

(** An event and the render after it take a state in which all is
    rendered to the state [step] gives. *)
Lemma render_after_event sc st e :
  reachable decode v st → shows sc st →
  shows (render v (occur decode v eager sc (Ev e))) (step decode v st e).
Proof.
  intros Hr Hsh.
  pose proof (app_render_occur decode v eager sc st e Hr Hsh) as Happ.
  destruct (texts_occur decode v eager sc st e Hsh) as [Hlen Htx].
  unfold shows. rewrite Happ. split_and!; try done.
  - unfold render in Happ |- *. simpl in *. by rewrite Happ.
  - unfold render in Happ |- *. simpl in *. by rewrite Happ.
Qed.

Lemma occurs_rendered_after_each es : ∀ sc st,
  reachable decode v st → shows sc st →
  shows (occurs decode v eager (rendered_after_each es) sc)
    (run decode v es st).
Proof.
  induction es as [|e es IH]; intros sc st Hr Hsh; [done|].
  change (occurs decode v eager (rendered_after_each (e :: es)) sc)
    with (occurs decode v eager (rendered_after_each es)
            (render v (occur decode v eager sc (Ev e)))).
  apply IH; [by apply reachable_step|by apply render_after_event].
Qed.

End Simulation2.

Section BatchEnd.

Variable decode : list byte → string.
Variable v : variant.
Variable eager : bool.
Hypothesis Hstream : streaming v = true.

(** The end of the stream, rendered. *)
Lemma batch_done k aiText T s sc :
  batch_reading k aiText T s sc →
  shown (render v (occur decode v eager sc (Ev (Done k))))
  = T ++ [user_msg s; ai_msg aiText].
Proof.
  intros (Hwf & Hk & Htx & n & c & Hp & Ht & Hn0 & _).
  cbn [occur]. rewrite Hk. unfold render, with_app.
  cbn [app aiTexts pending]. rewrite Hp.
  destruct (fold_write_last v Hstream (aiTexts sc) k T (user_msg s) n
              (suspend k Returned (app sc)) c Hwf Ht) as (_ & -> & _).
  rewrite (list_lookup_total_correct _ _ _ Htx).
  destruct n; [by rewrite Hn0|done].
Qed.

End BatchEnd.

(** C5: in a streaming variant, after a submit of a non-empty [s], each
    render shows in the last entry the concatenation of the decoded chunks
    received so far: the renders show the running concatenations of the
    batches of chunks that arrive between them, whether or not React
    computes the first update of a batch at once.  With a render after
    every chunk, the content after the [j+1]-th chunk is the decoded chunks
    1 to [j+1] joined, and chunks decoding to "He" and "llo" show "He",
    then "Hello"; when both arrive before the render, it shows "Hello"
    and "He" is not shown.  The end of the stream changes nothing. *)
Theorem rendered_content_accumulates decode eager v st s :
  streaming v = true → reachable decode v st → s ≠ "" →
  (∀ groups,
     renders decode v eager (batches (length (calls st)) groups)
       (quiet (run decode v
                 [Change s; Click; Response (length (calls st))] st))
     = (λ c, transcript st ++ [user_msg s; ai_msg c])
         <$> accumulate "" ((λ g, concat_text (decode <$> g)) <$> groups))
  ∧ (∀ cs j, j < length cs →
       renders decode v eager
         (batches (length (calls st)) ((λ c, [c]) <$> cs))
         (quiet (run decode v
                   [Change s; Click; Response (length (calls st))] st))
       !! j
       = Some (transcript st ++
                 [user_msg s;
                  ai_msg (concat_text (decode <$> take (S j) cs))]))
  ∧ (∀ c1 c2, decode c1 = "He" → decode c2 = "llo" →
       shown_content <$>
         renders decode v eager (batches (length (calls st)) [[c1]; [c2]])
           (quiet (run decode v
                     [Change s; Click; Response (length (calls st))] st))
       = [Some "He"; Some "Hello"]
       ∧ shown_content <$>
           renders decode v eager (batches (length (calls st)) [[c1; c2]])
             (quiet (run decode v
                       [Change s; Click; Response (length (calls st))] st))
         = [Some "Hello"])
  ∧ (∀ groups,
       shown
         (occurs decode v eager
            (batches (length (calls st)) groups
             ++ [Ev (Done (length (calls st))); Render])
            (quiet (run decode v
                      [Change s; Click; Response (length (calls st))] st)))
       = transcript st ++
           [user_msg s; ai_msg (concat_text (decode <$> concat groups))]).
Proof.
  intros Hv Hr Hs.
  pose proof (batch_start decode v Hv s st Hr Hs) as Hb.
  assert (∀ groups,
            renders decode v eager (batches (length (calls st)) groups)
              (quiet (run decode v
                        [Change s; Click; Response (length (calls st))] st))
            = (λ c, transcript st ++ [user_msg s; ai_msg c])
                <$> accumulate ""
                      ((λ g, concat_text (decode <$> g)) <$> groups)) as Hall.
  { intros groups.
    by destruct (batch_renders decode v eager Hv _ _ s groups _ _ Hb). }
  assert (∀ (T : list Message) u (l : list string),
            shown_content <$> ((λ c, T ++ [u; ai_msg c]) <$> l) = Some <$> l)
    as Hcontent.
  { intros T u l. rewrite <-list_fmap_compose. apply list_fmap_ext.
    intros _ c _. unfold shown_content. simpl.
    by rewrite transcript_turn_snoc, last_snoc. }
  split_and!.
  - done.
  - intros cs j Hj.
    assert ((λ g, concat_text (decode <$> g)) <$> ((λ c, [c]) <$> cs)
            = decode <$> cs) as Hsingle.
    { rewrite <-list_fmap_compose. apply list_fmap_ext. intros _ c _.
      simpl. unfold concat_text. simpl. by rewrite append_nil_r. }
    rewrite Hall, Hsingle, list_lookup_fmap, accumulate_lookup
      by by rewrite length_fmap.
    simpl. by rewrite fmap_take.
  - intros c1 c2 H1 H2. rewrite !Hall, !Hcontent. simpl.
    unfold concat_text. simpl. by rewrite H1, H2.
  - intros groups.
    destruct (batch_renders decode v eager Hv _ _ s groups _ _ Hb)
      as [_ Hb'].
    rewrite occurs_app.
    change (occurs decode v eager [Ev (Done (length (calls st))); Render] ?x)
      with (render v (occur decode v eager x (Ev (Done (length (calls st)))))).
    by rewrite (batch_done decode v eager Hv _ _ _ s _ Hb').
Qed.

Lemma rendered_content_accumulates_witness :
  streaming StreamInPlace = true ∧ reachable decode_ascii StreamInPlace init
  ∧ "hi" ≠ "" ∧ decode_ascii (bytes "He") = "He"
  ∧ decode_ascii (bytes "llo") = "llo"
  ∧ shown_content <$>
      renders decode_ascii StreamInPlace true
        (batches (length (calls init)) [[bytes "He"]; [bytes "llo"]])
        (quiet (run decode_ascii StreamInPlace
                  [Change "hi"; Click; Response (length (calls init))] init))
    = [Some "He"; Some "Hello"]
  ∧ shown_content <$>
      renders decode_ascii StreamInPlace true
        (batches (length (calls init)) [[bytes "He"; bytes "llo"]])
        (quiet (run decode_ascii StreamInPlace
                  [Change "hi"; Click; Response (length (calls init))] init))
    = [Some "Hello"].
Proof.
  split_and!; [done|apply reachable_init|done|done|done|..];
    destruct (rendered_content_accumulates decode_ascii true StreamInPlace
                init "hi" eq_refl (reachable_init _ _) ltac:(done))
      as (_ & _ & H & _);
    destruct (H (bytes "He") (bytes "llo") eq_refl eq_refl) as [H1 H2];
    [exact H1|exact H2].
Defined.

(** C5 as stated fails: when the two chunks arrive with no render in
    between, the updaters run at the next render and both read the
    variable [aiText], which is then "Hello": the last entry goes from ""
    to "Hello", and "He" is never shown, in both streaming variants and
    whether or not the first update is computed at once. *)
Lemma chunks_before_a_render_refuted :
  shown_content <$>
    renders decode_ascii StreamInPlace false
      [Ev (Change "hi"); Render; Ev Click; Render; Ev (Response 0);
       Ev (Read 0 (bytes "He")); Ev (Read 0 (bytes "llo")); Render;
       Ev (Done 0); Render] (quiet init)
  = [None; Some ""; Some "Hello"; Some "Hello"]
  ∧ shown_content <$>
      renders decode_ascii StreamInPlace true
        [Ev (Change "hi"); Render; Ev Click; Render; Ev (Response 0);
         Ev (Read 0 (bytes "He")); Ev (Read 0 (bytes "llo")); Render;
         Ev (Done 0); Render] (quiet init)
    = [None; Some ""; Some "Hello"; Some "Hello"]
  ∧ shown_content <$>
      renders decode_ascii StreamReplace false
        [Ev (Change "hi"); Render; Ev Click; Render; Ev (Response 0);
         Ev (Read 0 (bytes "He")); Ev (Read 0 (bytes "llo")); Render;
         Ev (Done 0); Render] (quiet init)
    = [None; Some ""; Some "Hello"; Some "Hello"]
  ∧ shown_content <$>
      renders decode_ascii StreamReplace true
        [Ev (Change "hi"); Render; Ev Click; Render; Ev (Response 0);
         Ev (Read 0 (bytes "He")); Ev (Read 0 (bytes "llo")); Render;
         Ev (Done 0); Render] (quiet init)
    = [None; Some ""; Some "Hello"; Some "Hello"].
Proof. split_and!; by vm_compute. Qed.

(** ** Clicking twice *)

Lemma request_update_fields v eager u sc :
  calls (app (request_update v eager u sc)) = calls (app sc)
  ∧ requests (app (request_update v eager u sc)) = requests (app sc)
  ∧ shown_input (request_update v eager u sc) = shown_input sc.
Proof.
  unfold request_update. destruct (eager && negb (scheduled sc)); [|done].
  destruct (compute_update_calls v (aiTexts sc) u (app sc)) as [Hc Hr].
  destruct u; try case_decide; done.
Qed.

(** A click that passes the guard posts the input of the last render. *)
Lemma click_sent v eager sc :
  guarded v && bool_decide (shown_input sc = "") = false →
  requests (app (click v eager sc))
  = requests (app sc) ++ [{| url := endpoint v; message := shown_input sc |}]
  ∧ calls (app (click v eager sc)) = calls (app sc) ++ [AwaitFetch]
  ∧ shown_input (click v eager sc) = shown_input sc.
Proof.
  intros Hg. unfold click. rewrite Hg.
  cbn [app requests calls shown_input].
  destruct (request_update_fields v eager (SetInput "")
              (request_update v eager (Append (submitted v (shown_input sc)))
                 sc)) as (-> & -> & ->).
  by destruct (request_update_fields v eager
                 (Append (submitted v (shown_input sc))) sc)
    as (-> & -> & ->).
Qed.

(** X11: in part_000 and 001-vite the handler reads the [input] of the
    last render.  Once the component has rendered after a click, a further
    click does nothing: the first click cleared the input or found it
    empty.  Two clicks with no render in between read the same input, and
    when it is not empty both post it. *)
Theorem second_click_needs_a_render decode eager v st :
  v ≠ StreamReplace → reachable decode v st →
  occur decode v eager
    (render v (occur decode v eager (quiet st) (Ev Click))) (Ev Click)
  = render v (occur decode v eager (quiet st) (Ev Click))
  ∧ (input st ≠ "" →
     requests (app (occurs decode v eager [Ev Click; Ev Click] (quiet st)))
     = requests st ++ [{| url := endpoint v; message := input st |};
                       {| url := endpoint v; message := input st |}]
     ∧ calls (app (occurs decode v eager [Ev Click; Ev Click] (quiet st)))
       = calls st ++ [AwaitFetch; AwaitFetch]).
Proof.
  intros Hv Hr. split.
  - pose proof (render_after_event decode v eager (quiet st) st Click Hr
                  (shows_quiet st)) as (_ & _ & _ & Hin & _).
    assert (input (step decode v st Click) = "") as Hcleared.
    { simpl. destruct (decide (input st = "")) as [He|Hne].
      - rewrite sendMessage_skip; [done|].
        destruct v; [|done|]; simpl; by apply bool_decide_eq_false; intros [].
      - by apply sendMessage_input. }
    set (sc1 := render v (occur decode v eager (quiet st) (Ev Click))) in *.
    cbn [occur]. unfold click. rewrite Hin, Hcleared.
    by destruct v.
  - intros Hne.
    assert (guarded v && bool_decide (shown_input (quiet st) = "") = false)
      as Hg.
    { apply andb_false_iff. right. by apply bool_decide_eq_false. }
    destruct (click_sent v eager (quiet st) Hg) as (Hr1 & Hc1 & Hi1).
    assert (guarded v
            && bool_decide (shown_input (click v eager (quiet st)) = "")
            = false) as Hg' by by rewrite Hi1.
    destruct (click_sent v eager _ Hg') as (Hr2 & Hc2 & _).
    change (occurs decode v eager [Ev Click; Ev Click] (quiet st))
      with (click v eager (click v eager (quiet st))).
    rewrite Hr2, Hc2, Hr1, Hc1, Hi1. simpl.
    by rewrite <-!(assoc_L (++)).
Qed.

Lemma second_click_needs_a_render_witness :
  StreamInPlace ≠ StreamReplace
  ∧ reachable decode_ascii StreamInPlace (setInput "a" init)
  ∧ input (setInput "a" init) ≠ ""
  ∧ requests
      (app (occurs decode_ascii StreamInPlace true [Ev Click; Ev Click]
              (quiet (setInput "a" init))))
    = requests (setInput "a" init)
      ++ [{| url := endpoint StreamInPlace; message := "a" |};
          {| url := endpoint StreamInPlace; message := "a" |}].
Proof.
  assert (reachable decode_ascii StreamInPlace (setInput "a" init)) as Hr
    by by exists [Change "a"].
  split_and!; [done|done|done|].
  destruct (second_click_needs_a_render decode_ascii true StreamInPlace
              (setInput "a" init) ltac:(done) Hr) as [_ H].
  destruct (H ltac:(done)) as [H1 _].
  exact H1.
Defined.

(** ** The write through the last index *)

(** X8: in a streaming variant the array is not empty in any reachable
    state in which a call reads a chunk: part_000's
    [copy[copy.length - 1].content = aiText] finds a message object and
    does not throw, and 003-stream's assignment replaces an element and
    never goes to index -1. *)
Theorem write_finds_last_entry decode v st k aiText :
  streaming v = true → reachable decode v st →
  calls st !! k = Some (AwaitRead aiText) →
  messages st ≠ []
  ∧ (∀ c, ∃ h, Part000.updater c (heap st) (messages st)
               = Some (h, messages st))
  ∧ (∀ c, length (Stream003.updater c (heap st) (messages st)).2
          = length (messages st)
          ∧ last (Stream003.updater c (heap st) (messages st)).2
            = Some (length (heap st))).
Proof.
  intros Hv Hr Hk.
  pose proof (calls_le_transcript decode v st Hr) as Hle.
  apply lookup_lt_Some in Hk as Hlt.
  unfold transcript in Hle. rewrite deref_length in Hle.
  destruct (messages st) as [|l ms _] eqn:Hms using rev_ind;
    [simpl in Hle; lia|].
  split_and!.
  - by destruct ms.
  - intros c. unfold Part000.updater. rewrite last_snoc. eauto.
  - intros c. rewrite Stream003_updater_snoc. simpl.
    rewrite !length_app. by rewrite last_snoc.
Qed.

Lemma write_finds_last_entry_witness :
  streaming StreamInPlace = true
  ∧ reachable decode_ascii StreamInPlace
      (run decode_ascii StreamInPlace [Change "a"; Click; Response 0] init)
  ∧ calls
      (run decode_ascii StreamInPlace [Change "a"; Click; Response 0] init)
    !! 0 = Some (AwaitRead "")
  ∧ messages
      (run decode_ascii StreamInPlace [Change "a"; Click; Response 0] init)
    ≠ [].
Proof.
  assert (reachable decode_ascii StreamInPlace
            (run decode_ascii StreamInPlace [Change "a"; Click; Response 0]
               init)) as Hr by by eexists.
  split_and!; [done|done|done|].
  destruct (write_finds_last_entry decode_ascii StreamInPlace _ 0 ""
              eq_refl Hr eq_refl) as [H _].
  exact H.
Defined.
